(** * The three programs of the repository

    - The ride order lifecycle (src/13.2/main.go, second program): the
      [transitions] table and the methods [CanTransition], [Transition],
      [SimulateDelay] and [SubmitRating] of [*RideOrder].
    - The booking registry (src/13.2/main.go, first program): the methods of
      [*BookingSystem].
    - The checkout (src/13.3/main.go): carts, orders and the methods of
      [*OrderProcessor].

    Each is a shallow embedding of the Go code, followed by the theorems
    that relate it to the specification and by further properties of the
    code.

    The methods of [*RideOrder] take a pointer receiver and mutate the order
    in place, print to standard output, and one of them runs in a goroutine.
    They are written in a small resumable-computation monad ([Thread]): every
    access to the shared order and every print is one atomic step, so the same
    program text can be run sequentially ([run]) or interleaved with another
    thread ([interleave]). *)

From Stdlib Require Import ZArith Lia.
From stdpp Require Import base option list strings gmap pretty.

Local Open Scope string_scope.

(** * The ride order lifecycle *)

(** ** Data model *)

(** [type RideState string] and its seven constants. *)
Definition RideState := string.

Definition StateIdle : RideState := "Idle".
Definition StateCarSelected : RideState := "CarSelected".
Definition StateOrderConfirmed : RideState := "OrderConfirmed".
Definition StateCarArrived : RideState := "CarArrived".
Definition StateInTrip : RideState := "InTrip".
Definition StateTripCompleted : RideState := "TripCompleted".
Definition StateTripCancelled : RideState := "TripCancelled".

(** [type RideOrder struct]; [Rating] is a Go [int], which is only compared
    and stored, never computed with, so it is an integer here. *)
Record RideOrder := mkRideOrder {
  ID : string;
  State : RideState;
  CarID : string;
  Driver : string;
  Rating : Z
}.

(** [type RideEvent string] and its eleven constants. *)
Definition RideEvent := string.

Definition EventSelectCar : RideEvent := "selectCar".
Definition EventConfirmOrder : RideEvent := "confirmOrder".
Definition EventCarArrived : RideEvent := "carArrived".
Definition EventStartTrip : RideEvent := "startTrip".
Definition EventEndTrip : RideEvent := "endTrip".
Definition EventCancelOrder : RideEvent := "cancelOrder".
Definition EventCarDelayed : RideEvent := "carDelayed".
Definition EventPaymentSuccess : RideEvent := "paymentSuccess".
Definition EventPaymentFailed : RideEvent := "paymentFailed".
Definition EventChangeCar : RideEvent := "changeCar".
Definition EventEmergencyCancel : RideEvent := "emergencyCancel".

(** [var transitions = map[RideState]map[RideEvent]RideState{...}] *)
Definition transitions : gmap string (gmap string string) :=
  list_to_map [
    (StateIdle, list_to_map [
      (EventSelectCar, StateCarSelected);
      (EventCancelOrder, StateTripCancelled)]);
    (StateCarSelected, list_to_map [
      (EventConfirmOrder, StateOrderConfirmed);
      (EventChangeCar, StateCarSelected);
      (EventCancelOrder, StateTripCancelled)]);
    (StateOrderConfirmed, list_to_map [
      (EventCarArrived, StateCarArrived);
      (EventCancelOrder, StateTripCancelled);
      (EventCarDelayed, StateTripCancelled)]);
    (StateCarArrived, list_to_map [
      (EventStartTrip, StateInTrip);
      (EventCancelOrder, StateTripCancelled)]);
    (StateInTrip, list_to_map [
      (EventEndTrip, StateTripCompleted);
      (EventEmergencyCancel, StateTripCancelled)]);
    (StateTripCompleted, list_to_map [
      (EventPaymentSuccess, StateIdle);
      (EventPaymentFailed, StateTripCompleted)]);
    (StateTripCancelled, list_to_map [])
  ].

(** Go's nested index expression [transitions[s][e]].  Indexing a missing
    outer key gives the nil map, and indexing the nil map gives "not
    present"; [index2] is the comma-ok form [v, ok := transitions[s][e]]
    with [Some v] for [ok = true]. *)
Definition index2 (s : RideState) (e : RideEvent) : option RideState :=
  match transitions !! s with
  | Some inner => inner !! e
  | None => None
  end.

(** The single-value form [transitions[s][e]]: the zero value [""] when the
    key is absent. *)
Definition index2_zero (s : RideState) (e : RideEvent) : RideState :=
  default "" (index2 s e).

(** ** Effects *)

(** What a method does to the outside: text written to standard output and
    stores to the fields of the shared order, in program order. *)
Inductive Effect :=
  | Printed (text : string)
  | StateSet (s : RideState)
  | RatingSet (n : Z).

(** The order behind the receiver pointer [r], and the effects so far
    (oldest first). *)
Record World := mkWorld {
  order : RideOrder;
  trace : list Effect
}.

(** A computation is a tree of atomic steps.  [Step upd k] performs [upd] on
    the world and continues with [k] applied to the world it has produced:
    the two together are one indivisible step. *)
Inductive Thread (A : Type) : Type :=
  | Ret (a : A)
  | Step (upd : World -> World) (k : World -> Thread A).
Arguments Ret {A} a.
Arguments Step {A} upd k.

Fixpoint thread_bind {A B} (t : Thread A) (f : A -> Thread B) : Thread B :=
  match t with
  | Ret a => f a
  | Step upd k => Step upd (fun w => thread_bind (k w) f)
  end.

#[export] Instance thread_ret : MRet Thread := fun A a => Ret a.
#[export] Instance thread_mbind : MBind Thread :=
  fun A B f t => thread_bind t f.

(** Sequential execution: the thread runs alone, to completion. *)
Fixpoint run {A} (t : Thread A) (w : World) : World * A :=
  match t with
  | Ret a => (w, a)
  | Step upd k => let w' := upd w in run (k w') w'
  end.

(** One atomic step of a thread; a finished thread stays as it is. *)
Definition step1 {A} (t : Thread A) (w : World) : World * Thread A :=
  match t with
  | Ret a => (w, Ret a)
  | Step upd k => let w' := upd w in (w', k w')
  end.

(** Which of two threads makes the next step. *)
Inductive Turn := Main | Watcher.

(** Two threads on one shared world under a schedule: the interleaving
    semantics of a goroutine running next to the main flow. *)
Fixpoint interleave {A B} (sched : list Turn) (a : Thread A) (b : Thread B)
    (w : World) : World * Thread A * Thread B :=
  match sched with
  | [] => (w, a, b)
  | Main :: sched' =>
      let '(w', a') := step1 a w in interleave sched' a' b w'
  | Watcher :: sched' =>
      let '(w', b') := step1 b w in interleave sched' a b' w'
  end.

(** *** Primitive steps *)

(** Reads of [r.State] and [r.ID]. *)
Definition readState : Thread RideState :=
  Step (fun w => w) (fun w => Ret (State (order w))).
Definition readID : Thread string :=
  Step (fun w => w) (fun w => Ret (ID (order w))).

(** The order after [r.State = s] and after [r.Rating = n]. *)
Definition set_State (r : RideOrder) (s : RideState) : RideOrder :=
  mkRideOrder (ID r) s (CarID r) (Driver r) (Rating r).
Definition set_Rating (r : RideOrder) (n : Z) : RideOrder :=
  mkRideOrder (ID r) (State r) (CarID r) (Driver r) n.

(** [r.State = s] *)
Definition writeState (s : RideState) : Thread unit :=
  Step (fun w => mkWorld (set_State (order w) s) (trace w ++ [StateSet s]))
       (fun _ => Ret tt).

(** [r.Rating = n] *)
Definition writeRating (n : Z) : Thread unit :=
  Step (fun w => mkWorld (set_Rating (order w) n) (trace w ++ [RatingSet n]))
       (fun _ => Ret tt).

(** Writing [text] to standard output. *)
Definition print (text : string) : Thread unit :=
  Step (fun w => mkWorld (order w) (trace w ++ [Printed text]))
       (fun _ => Ret tt).

Definition newline : string := String (Ascii.ascii_of_nat 10) EmptyString.

(** [fmt.Println(text)] *)
Definition Println (text : string) : Thread unit := print (text +:+ newline).

(** [time.Sleep(d)]: the thread does nothing, and others may run. *)
Definition Sleep : Thread unit := Step (fun w => w) (fun _ => Ret tt).

(** Go's [error]: [nil] is [None], otherwise the message. *)
Definition error := option string.

(** ** The methods of [*RideOrder] *)

(** [func (r *RideOrder) CanTransition(event RideEvent) bool] *)
Definition CanTransition (event : RideEvent) : Thread bool :=
  s ← readState;
  mret (bool_decide (is_Some (index2 s event))).

(** The [switch event] of [Transition]: the event-specific message.  There
    is no [default] case, so any other event prints nothing. *)
Definition effectMessage (event : RideEvent) : Thread unit :=
  if decide (event = EventSelectCar) then Println "Car selected."
  else if decide (event = EventConfirmOrder) then
    Println "Order confirmed. Car is on the way."
  else if decide (event = EventCarArrived) then Println "Car has arrived."
  else if decide (event = EventStartTrip) then Println "Trip started."
  else if decide (event = EventEndTrip) then
    Println "Trip completed. Payment pending."
  else if decide (event = EventCancelOrder ∨ event = EventCarDelayed
                  ∨ event = EventEmergencyCancel) then
    Println "Order cancelled."
  else if decide (event = EventPaymentSuccess) then
    Println "Payment successful."
  else if decide (event = EventPaymentFailed) then
    Println "Payment failed. Please try again."
  else mret tt.

(** [func (r *RideOrder) Transition(event RideEvent) error] *)
Definition Transition (event : RideEvent) : Thread error :=
  ok ← CanTransition event;
  if negb ok then
    s ← readState;
    mret (Some ("invalid transition: " +:+ s +:+ " -> " +:+ event))
  else
    s ← readState;
    let newState := index2_zero s event in
    id ← readID;
    from ← readState;
    print ("Order " +:+ id +:+ ": " +:+ from +:+ " -> " +:+ newState
           +:+ newline);;
    writeState newState;;
    effectMessage event;;
    mret None.

(** [func (r *RideOrder) SimulateDelay()]; the error of [Transition] is
    dropped, as in the source. *)
Definition SimulateDelay : Thread unit :=
  s ← readState;
  if decide (s = StateOrderConfirmed) then
    Sleep;;
    Println "Car is delayed...";;
    _ ← Transition EventCarDelayed;
    mret tt
  else mret tt.

(** The two [errors.New(...)] values of [SubmitRating]. *)
Definition errNotEligible : string :=
  "rating can only be submitted after the trip cycle is complete".
Definition errOutOfRange : string := "rating must be between 1 and 5".

(** [func (r *RideOrder) SubmitRating(rating int) error] *)
Definition SubmitRating (rating : Z) : Thread error :=
  s ← readState;
  if decide (s ≠ StateIdle) then mret (Some errNotEligible)
  else if decide (rating < 1 ∨ rating > 5)%Z then mret (Some errOutOfRange)
  else
    writeRating rating;;
    print ("Thank you for the rating: " +:+ pretty rating +:+ newline);;
    mret None.

(** A caller that submits the events one after the other and keeps each
    result, the way [main] drives an order. *)
Fixpoint submitAll (events : list RideEvent) : Thread (list error) :=
  match events with
  | [] => mret []
  | e :: rest =>
      err ← Transition e;
      errs ← submitAll rest;
      mret (err :: errs)
  end.

(** ** The transition table of the specification (section 4.1)

    The rows of the table, as triples (from, event, to); [index2] is compared
    with it below. *)
Definition spec_table : list (RideState * RideEvent * RideState) := [
  (StateIdle, EventSelectCar, StateCarSelected);
  (StateIdle, EventCancelOrder, StateTripCancelled);
  (StateCarSelected, EventConfirmOrder, StateOrderConfirmed);
  (StateCarSelected, EventChangeCar, StateCarSelected);
  (StateCarSelected, EventCancelOrder, StateTripCancelled);
  (StateOrderConfirmed, EventCarArrived, StateCarArrived);
  (StateOrderConfirmed, EventCancelOrder, StateTripCancelled);
  (StateOrderConfirmed, EventCarDelayed, StateTripCancelled);
  (StateCarArrived, EventStartTrip, StateInTrip);
  (StateCarArrived, EventCancelOrder, StateTripCancelled);
  (StateInTrip, EventEndTrip, StateTripCompleted);
  (StateInTrip, EventEmergencyCancel, StateTripCancelled);
  (StateTripCompleted, EventPaymentSuccess, StateIdle);
  (StateTripCompleted, EventPaymentFailed, StateTripCompleted)
].

(** ** Vocabulary of the statements *)

(** The record printed by [fmt.Printf("Order %s: %s -> %s\n", ...)]. *)
Definition transitionRecord (id : string) (from to : RideState) : string :=
  "Order " +:+ id +:+ ": " +:+ from +:+ " -> " +:+ to +:+ newline.

(** The message of [fmt.Errorf("invalid transition: %s -> %s", ...)]. *)
Definition invalidTransition (s : RideState) (e : RideEvent) : string :=
  "invalid transition: " +:+ s +:+ " -> " +:+ e.

(** The cases of the [switch] in [Transition]: event and text printed. *)
Definition messages : list (RideEvent * string) := [
  (EventSelectCar, "Car selected.");
  (EventConfirmOrder, "Order confirmed. Car is on the way.");
  (EventCarArrived, "Car has arrived.");
  (EventStartTrip, "Trip started.");
  (EventEndTrip, "Trip completed. Payment pending.");
  (EventCancelOrder, "Order cancelled.");
  (EventCarDelayed, "Order cancelled.");
  (EventEmergencyCancel, "Order cancelled.");
  (EventPaymentSuccess, "Payment successful.");
  (EventPaymentFailed, "Payment failed. Please try again.")
].

(** [n] atomic steps of one thread. *)
Fixpoint steps {A} (n : nat) (t : Thread A) (w : World) : World * Thread A :=
  match n with
  | O => (w, t)
  | S n' => let '(w', t') := step1 t w in steps n' t' w'
  end.

(** [within n t]: whatever the world, [t] finishes in at most [n] steps. *)
Inductive within {A} : nat -> Thread A -> Prop :=
  | within_ret n a : within n (Ret a)
  | within_step n upd k :
      (∀ w, within n (k w)) -> within (S n) (Step upd k).

(** The outcome of two calls made one after the other. *)
Definition oneAfterTheOther {A B} (first : Thread A) (second : Thread B)
    (w : World) : World * A * B :=
  let r1 := run first w in
  let r2 := run second r1.1 in
  (r2.1, r1.2, r2.2).

(** Two [Transition] calls on one order are linearized when every schedule
    that lets both finish leaves the order and returns the results that the
    two calls give when made one after the other, in one of the two
    orders. *)
Definition linearized (ea eb : RideEvent) (w : World) : Prop :=
  ∀ sched w' ra rb,
    interleave sched (Transition ea) (Transition eb) w = (w', Ret ra, Ret rb) ->
    (order w', ra, rb)
      = (let '(w2, ra', rb') :=
           oneAfterTheOther (Transition ea) (Transition eb) w in
         (order w2, ra', rb'))
    ∨ (order w', ra, rb)
      = (let '(w2, rb', ra') :=
           oneAfterTheOther (Transition eb) (Transition ea) w in
         (order w2, ra', rb')).

(** The order of the delay scenario of [main], confirmed and waiting. *)
Definition order3 : World :=
  mkWorld (mkRideOrder "RIDE-003" StateOrderConfirmed "" "" 0) [].

(** A schedule on which both threads read the state for their check before
    either stores: the main flow checks, the watcher checks, the main flow
    finishes, the watcher finishes. *)
Definition racingSchedule : list Turn :=
  [Main; Watcher] ++ replicate 6 Main ++ replicate 6 Watcher.

(** The seven states that the constants name. *)
Definition states : list RideState := [
  StateIdle; StateCarSelected; StateOrderConfirmed; StateCarArrived;
  StateInTrip; StateTripCompleted; StateTripCancelled
].

#[export] Instance Turn_eq_dec : EqDecision Turn.
Proof. solve_decision. Defined.

(** The statements of [SimulateDelay] that follow [time.Sleep]. *)
Definition afterSleep : Thread unit :=
  Println "Car is delayed...";;
  _ ← Transition EventCarDelayed;
  mret tt.

(** The main flow makes its whole call while the watcher sleeps: the watcher
    tests the state and goes to sleep, the main flow runs, the watcher wakes
    up and runs to its end. *)
Definition duringSleep : list Turn :=
  [Watcher; Watcher] ++ replicate 7 Main ++ replicate 8 Watcher.

(** * The booking registry (src/13.2/main.go, first program)

    [BookingSystem] keeps slices of pointers, and a [Booking] points to its
    [User] and its [Event]: an event is shared between the list of events and
    the bookings made for it.  The objects therefore live in a store, one map
    from addresses to objects for each struct, and the slices hold
    addresses. *)

(** [type Role string] *)
Definition Role := string.
Definition RoleGuest : Role := "guest".
Definition RoleUser : Role := "user".
Definition RoleAdmin : Role := "admin".

(** [type BookingStatus string] *)
Definition BookingStatus := string.
Definition StatusActive : BookingStatus := "active".
Definition StatusCancelled : BookingStatus := "cancelled".

(** An address.  [nil], and any address that holds no object, cannot be
    dereferenced: the program panics. *)
Definition ptr := positive.

(** [type User struct] *)
Module User.
Record t := mk { ID : Z; Name : string; Role : Role }.
End User.

(** [type Event struct]; [Time] stands for [time.Time], which the program
    only stores and formats. *)
Module Event.
Record t (Time : Type) :=
  mk { ID : Z; Title : string; Date : Time; Venue : string }.
Arguments mk {Time} ID Title Date Venue.
Arguments ID {Time} _.
Arguments Title {Time} _.
Arguments Date {Time} _.
Arguments Venue {Time} _.
End Event.

(** [type Booking struct]: [User] and [Event] are pointers. *)
Module Booking.
Record t := mk { ID : Z; User : ptr; Event : ptr; Status : BookingStatus }.
End Booking.

(** [type BookingSystem struct] *)
Module BookingSystem.
Record t := mk {
  events : list ptr;
  users : list ptr;
  bookings : list ptr;
  nextEventID : Z;
  nextBookingID : Z
}.
End BookingSystem.

(** [func NewBookingSystem() *BookingSystem] *)
Definition NewBookingSystem : BookingSystem.t :=
  BookingSystem.mk [] [] [] 1 1.

(** Go's [int] is 64 bits wide here; [n++] wraps around. *)
Definition maxInt : Z := (2 ^ 63 - 1)%Z.
Definition wrapInt (n : Z) : Z := ((n + 2 ^ 63) mod 2 ^ 64 - 2 ^ 63)%Z.

(** One step of [for i, x := range list { if x.ID == id { ... } }]: the
    first listed object whose ID is [id], with its index and address; the
    loop panics at a pointer it cannot dereference before it finds one. *)
Inductive Found (T : Type) :=
  | NilDeref
  | NotFound
  | FoundAt (i : nat) (p : ptr) (x : T).
Arguments NilDeref {T}.
Arguments NotFound {T}.
Arguments FoundAt {T} i p x.

Fixpoint findByID {T} (getID : T -> Z) (heap : gmap ptr T) (l : list ptr)
    (i : nat) (id : Z) : Found T :=
  match l with
  | [] => NotFound
  | p :: rest =>
      match heap !! p with
      | None => NilDeref
      | Some x =>
          if decide (getID x = id) then FoundAt i p x
          else findByID getID heap rest (S i) id
      end
  end.

Section Registry.
Context {Time : Type}.

(** [formatDate] stands for [Time.Format("2006-01-02 15:04")]. *)
Variable formatDate : Time -> string.

(** The objects, the system that the receiver [s] points to, and the text
    written to standard output (oldest first). *)
Record Store := mkStore {
  userObj : gmap ptr User.t;
  eventObj : gmap ptr (Event.t Time);
  bookingObj : gmap ptr Booking.t;
  system : BookingSystem.t;
  stdout : list string
}.

(** How a call ends: it panics, the store being what it was by then, or it
    returns. *)
Inductive Outcome (A : Type) :=
  | Panic (σ : Store)
  | Return (a : A) (σ : Store).
Arguments Panic {A} σ.
Arguments Return {A} a σ.

Definition printed (σ : Store) (text : string) : Store :=
  mkStore (userObj σ) (eventObj σ) (bookingObj σ) (system σ)
    (stdout σ ++ [text]).

(** [func (s *BookingSystem) AddEvent(title, date, venue, admin) error] *)
Definition AddEvent (title : string) (date : Time) (venue : string)
    (admin : ptr) (σ : Store) : Outcome error :=
  match userObj σ !! admin with
  | None => Panic σ
  | Some a =>
      if decide (User.Role a ≠ RoleAdmin) then
        Return (Some "only admin can add events") σ
      else
        let s := system σ in
        let event := Event.mk (BookingSystem.nextEventID s) title date venue in
        let p := fresh (dom (eventObj σ)) in
        Return None
          (mkStore (userObj σ) (<[p := event]> (eventObj σ)) (bookingObj σ)
             (BookingSystem.mk (BookingSystem.events s ++ [p])
                (BookingSystem.users s) (BookingSystem.bookings s)
                (wrapInt (BookingSystem.nextEventID s + 1))
                (BookingSystem.nextBookingID s))
             (stdout σ
              ++ ["Event '" +:+ title +:+ "' added (ID: "
                  +:+ pretty (Event.ID event) +:+ ")" +:+ newline]))
  end.

(** [func (s *BookingSystem) UpdateEvent(eventID, title, date, venue, admin)
    error]: the event is changed in place. *)
Definition UpdateEvent (eventID : Z) (title : string) (date : Time)
    (venue : string) (admin : ptr) (σ : Store) : Outcome error :=
  match userObj σ !! admin with
  | None => Panic σ
  | Some a =>
      if decide (User.Role a ≠ RoleAdmin) then
        Return (Some "only admin can edit events") σ
      else
        match findByID Event.ID (eventObj σ)
                (BookingSystem.events (system σ)) 0 eventID with
        | NilDeref => Panic σ
        | FoundAt _ p e =>
            Return None
              (mkStore (userObj σ)
                 (<[p := Event.mk (Event.ID e) title date venue]> (eventObj σ))
                 (bookingObj σ) (system σ)
                 (stdout σ
                  ++ ["Event ID " +:+ pretty eventID +:+ " updated"
                      +:+ newline]))
        | NotFound => Return (Some "event not found") σ
        end
  end.

(** [func (s *BookingSystem) DeleteEvent(eventID, admin) error]:
    [append(s.events[:i], s.events[i+1:]...)] takes the pointer out of the
    list; the event itself stays where it is. *)
Definition DeleteEvent (eventID : Z) (admin : ptr) (σ : Store)
    : Outcome error :=
  match userObj σ !! admin with
  | None => Panic σ
  | Some a =>
      if decide (User.Role a ≠ RoleAdmin) then
        Return (Some "only admin can delete events") σ
      else
        let s := system σ in
        match findByID Event.ID (eventObj σ) (BookingSystem.events s) 0
                eventID with
        | NilDeref => Panic σ
        | FoundAt i _ _ =>
            Return None
              (mkStore (userObj σ) (eventObj σ) (bookingObj σ)
                 (BookingSystem.mk
                    (take i (BookingSystem.events s)
                     ++ drop (S i) (BookingSystem.events s))
                    (BookingSystem.users s) (BookingSystem.bookings s)
                    (BookingSystem.nextEventID s)
                    (BookingSystem.nextBookingID s))
                 (stdout σ
                  ++ ["Event ID " +:+ pretty eventID +:+ " deleted"
                      +:+ newline]))
        | NotFound => Return (Some "event not found") σ
        end
  end.

(** [fmt.Printf("ID: %d | %s | %s | %s\n", ...)] of [ListEvents]. *)
Definition eventLine (e : Event.t Time) : string :=
  "ID: " +:+ pretty (Event.ID e) +:+ " | " +:+ Event.Title e +:+ " | "
  +:+ formatDate (Event.Date e) +:+ " | " +:+ Event.Venue e +:+ newline.

(** The loop of [ListEvents]: one line for each event, in the order of the
    list. *)
Fixpoint listEventLines (l : list ptr) (σ : Store) : Outcome unit :=
  match l with
  | [] => Return tt σ
  | p :: rest =>
      match eventObj σ !! p with
      | None => Panic σ
      | Some e => listEventLines rest (printed σ (eventLine e))
      end
  end.

(** [func (s *BookingSystem) ListEvents()] *)
Definition ListEvents (σ : Store) : Outcome unit :=
  if decide (length (BookingSystem.events (system σ)) = 0%nat) then
    Return tt (printed σ ("No events available" +:+ newline))
  else
    listEventLines (BookingSystem.events (system σ))
      (printed σ (newline +:+ "Available events:" +:+ newline)).

(** [func (s *BookingSystem) BookEvent(userID, eventID int, user *User)
    error]; [userID] is not used by the body. *)
Definition BookEvent (userID eventID : Z) (user : ptr) (σ : Store)
    : Outcome error :=
  match userObj σ !! user with
  | None => Panic σ
  | Some u =>
      if decide (User.Role u ≠ RoleUser) then
        Return (Some "only registered users can book") σ
      else
        let s := system σ in
        match findByID Event.ID (eventObj σ) (BookingSystem.events s) 0
                eventID with
        | NilDeref => Panic σ
        | NotFound => Return (Some "event not found") σ
        | FoundAt _ targetEvent e =>
            let booking :=
              Booking.mk (BookingSystem.nextBookingID s) user targetEvent
                StatusActive in
            let q := fresh (dom (bookingObj σ)) in
            Return None
              (mkStore (userObj σ) (eventObj σ)
                 (<[q := booking]> (bookingObj σ))
                 (BookingSystem.mk (BookingSystem.events s)
                    (BookingSystem.users s) (BookingSystem.bookings s ++ [q])
                    (BookingSystem.nextEventID s)
                    (wrapInt (BookingSystem.nextBookingID s + 1)))
                 (stdout σ
                  ++ ["Booking created: " +:+ User.Name u +:+ " -> "
                      +:+ Event.Title e +:+ " (ID: "
                      +:+ pretty (Booking.ID booking) +:+ ")" +:+ newline]))
        end
  end.

(** [func (s *BookingSystem) CancelBooking(bookingID int, user *User) error];
    [user] is dereferenced only once a booking with the ID is found. *)
Definition CancelBooking (bookingID : Z) (user : ptr) (σ : Store)
    : Outcome error :=
  match findByID Booking.ID (bookingObj σ)
          (BookingSystem.bookings (system σ)) 0 bookingID with
  | NilDeref => Panic σ
  | NotFound => Return (Some "booking not found") σ
  | FoundAt _ q b =>
      match userObj σ !! Booking.User b with
      | None => Panic σ
      | Some owner =>
          match userObj σ !! user with
          | None => Panic σ
          | Some u =>
              if decide (User.ID owner ≠ User.ID u
                         ∧ User.Role u ≠ RoleAdmin) then
                Return (Some "you can only cancel your own bookings") σ
              else
                Return None
                  (mkStore (userObj σ) (eventObj σ)
                     (<[q := Booking.mk (Booking.ID b) (Booking.User b)
                               (Booking.Event b) StatusCancelled]>
                        (bookingObj σ))
                     (system σ)
                     (stdout σ
                      ++ ["Booking ID " +:+ pretty bookingID +:+ " cancelled"
                          +:+ newline]))
          end
      end
  end.

(** [fmt.Printf("ID: %d | User: %s | Event: %s | Status: %s\n", ...)] of
    [ListAllBookings]. *)
Definition bookingLine (b : Booking.t) (u : User.t) (e : Event.t Time)
    : string :=
  "ID: " +:+ pretty (Booking.ID b) +:+ " | User: " +:+ User.Name u
  +:+ " | Event: " +:+ Event.Title e +:+ " | Status: " +:+ Booking.Status b
  +:+ newline.

(** The loop of [ListAllBookings]. *)
Fixpoint listBookingLines (l : list ptr) (σ : Store) : Outcome unit :=
  match l with
  | [] => Return tt σ
  | q :: rest =>
      match bookingObj σ !! q with
      | None => Panic σ
      | Some b =>
          match userObj σ !! Booking.User b with
          | None => Panic σ
          | Some u =>
              match eventObj σ !! Booking.Event b with
              | None => Panic σ
              | Some e => listBookingLines rest (printed σ (bookingLine b u e))
              end
          end
      end
  end.

(** [func (s *BookingSystem) ListAllBookings(admin *User)] *)
Definition ListAllBookings (admin : ptr) (σ : Store) : Outcome unit :=
  match userObj σ !! admin with
  | None => Panic σ
  | Some a =>
      if decide (User.Role a ≠ RoleAdmin) then
        Return tt (printed σ ("Access denied" +:+ newline))
      else
        listBookingLines (BookingSystem.bookings (system σ))
          (printed σ (newline +:+ "All bookings:" +:+ newline))
  end.

End Registry.
Arguments Panic {Time A} σ.
Arguments Return {Time A} a σ.

(** ** Vocabulary of the statements on the registry *)

(** The store in which a call ends. *)
Definition storeAfter {Time A} (o : @Outcome Time A) : Store :=
  match o with
  | Panic σ => σ
  | Return _ σ => σ
  end.

(** Every listed pointer holds an object. *)
Definition allocated {T} (heap : gmap ptr T) (l : list ptr) : Prop :=
  Forall (λ p, is_Some (heap !! p)) l.

(** No two places of the list hold objects with the same ID. *)
Definition uniqueIDs {T} (getID : T -> Z) (heap : gmap ptr T) (l : list ptr)
    : Prop :=
  ∀ i j p q x y,
    l !! i = Some p -> l !! j = Some q ->
    heap !! p = Some x -> heap !! q = Some y ->
    getID x = getID y -> i = j.

(** Every listed object has an ID below [next]. *)
Definition idsBelow {T} (getID : T -> Z) (heap : gmap ptr T) (l : list ptr)
    (next : Z) : Prop :=
  ∀ p x, p ∈ l -> heap !! p = Some x -> (getID x < next)%Z.

(** A store the methods can have built: listed pointers hold objects, a
    booking points to a user and an event that exist, listed IDs are distinct
    and below the next ID, and the counters have not overflowed. *)
Record consistent {Time} (σ : @Store Time) : Prop := mkConsistent {
  events_allocated :
    allocated (eventObj σ) (BookingSystem.events (system σ));
  bookings_allocated :
    allocated (bookingObj σ) (BookingSystem.bookings (system σ));
  booking_refs :
    ∀ q b, bookingObj σ !! q = Some b ->
      is_Some (userObj σ !! Booking.User b)
      ∧ is_Some (eventObj σ !! Booking.Event b);
  events_unique :
    uniqueIDs Event.ID (eventObj σ) (BookingSystem.events (system σ));
  events_below :
    idsBelow Event.ID (eventObj σ) (BookingSystem.events (system σ))
      (BookingSystem.nextEventID (system σ));
  bookings_unique :
    uniqueIDs Booking.ID (bookingObj σ) (BookingSystem.bookings (system σ));
  bookings_below :
    idsBelow Booking.ID (bookingObj σ) (BookingSystem.bookings (system σ))
      (BookingSystem.nextBookingID (system σ));
  counters_in_range :
    (1 ≤ BookingSystem.nextEventID (system σ) ≤ maxInt)%Z
    ∧ (1 ≤ BookingSystem.nextBookingID (system σ) ≤ maxInt)%Z
}.

(** The line that [ListEvents] prints for the pointer [p], and the line that
    [ListAllBookings] prints for the pointer [q]. *)
Definition eventLineAt {Time} (formatDate : Time -> string) (σ : Store)
    (p : ptr) : option string :=
  eventLine formatDate <$> eventObj σ !! p.

Definition bookingLineAt {Time} (σ : @Store Time) (q : ptr) : option string :=
  b ← bookingObj σ !! q;
  u ← userObj σ !! Booking.User b;
  e ← eventObj σ !! Booking.Event b;
  Some (bookingLine b u e).

(** A call of one of the methods, with its arguments. *)
Inductive Call (Time : Type) :=
  | CallAddEvent (title : string) (date : Time) (venue : string) (admin : ptr)
  | CallUpdateEvent (eventID : Z) (title : string) (date : Time)
      (venue : string) (admin : ptr)
  | CallDeleteEvent (eventID : Z) (admin : ptr)
  | CallListEvents
  | CallBookEvent (userID eventID : Z) (user : ptr)
  | CallCancelBooking (bookingID : Z) (user : ptr)
  | CallListAllBookings (admin : ptr).
Arguments CallAddEvent {Time} title date venue admin.
Arguments CallUpdateEvent {Time} eventID title date venue admin.
Arguments CallDeleteEvent {Time} eventID admin.
Arguments CallListEvents {Time}.
Arguments CallBookEvent {Time} userID eventID user.
Arguments CallCancelBooking {Time} bookingID user.
Arguments CallListAllBookings {Time} admin.

(** The pointer to a user that a call is given. *)
Definition callUser {Time} (c : Call Time) : option ptr :=
  match c with
  | CallAddEvent _ _ _ admin => Some admin
  | CallUpdateEvent _ _ _ _ admin => Some admin
  | CallDeleteEvent _ admin => Some admin
  | CallListEvents => None
  | CallBookEvent _ _ user => Some user
  | CallCancelBooking _ user => Some user
  | CallListAllBookings admin => Some admin
  end.

(** One call, its result dropped, as [main] makes them. *)
Definition perform {Time} (formatDate : Time -> string) (c : Call Time)
    (σ : Store) : Outcome unit :=
  let discard {A} (o : Outcome A) : Outcome unit :=
    match o with
    | Panic σ' => Panic σ'
    | Return _ σ' => Return tt σ'
    end in
  match c with
  | CallAddEvent title date venue admin =>
      discard (AddEvent title date venue admin σ)
  | CallUpdateEvent eventID title date venue admin =>
      discard (UpdateEvent eventID title date venue admin σ)
  | CallDeleteEvent eventID admin => discard (DeleteEvent eventID admin σ)
  | CallListEvents => ListEvents formatDate σ
  | CallBookEvent userID eventID user =>
      discard (BookEvent userID eventID user σ)
  | CallCancelBooking bookingID user =>
      discard (CancelBooking bookingID user σ)
  | CallListAllBookings admin => ListAllBookings admin σ
  end.

(** Calls made one after the other; a panic ends the program. *)
Fixpoint performAll {Time} (formatDate : Time -> string)
    (calls : list (Call Time)) (σ : Store) : Outcome unit :=
  match calls with
  | [] => Return tt σ
  | c :: rest =>
      match perform formatDate c σ with
      | Panic σ' => Panic σ'
      | Return _ σ' => performAll formatDate rest σ'
      end
  end.

(** The three users of [main], a registry with nothing in it, and the calls
    that [main] makes; a date is given as a number of hours, and printed as
    that number. *)
Definition demoUsers : gmap ptr User.t :=
  list_to_map [
    (1%positive, User.mk 1 "Anna (guest)" RoleGuest);
    (2%positive, User.mk 2 "Ivan (user)" RoleUser);
    (3%positive, User.mk 3 "Olga (admin)" RoleAdmin)
  ].

Definition demoStart : @Store Z := mkStore demoUsers ∅ ∅ NewBookingSystem [].

Definition demoCalls : list (Call Z) := [
  CallAddEvent "Jazz Concert" 24%Z "Jazz Club" 3%positive;
  CallAddEvent "Art Exhibition" 48%Z "Art Gallery" 3%positive;
  CallListEvents;
  CallBookEvent 2 1 2%positive;
  CallListAllBookings 3%positive;
  CallCancelBooking 1 2%positive;
  CallDeleteEvent 2 3%positive;
  CallListEvents
].

(** The registry of [main] after its first call, and after its first four
    calls: two events, and one booking of the first. *)
Definition demoOne : @Store Z :=
  storeAfter (performAll pretty (take 1 demoCalls) demoStart).
Definition demoBooked : @Store Z :=
  storeAfter (performAll pretty (take 4 demoCalls) demoStart).

(** * The checkout (src/13.3/main.go)

    The methods work on one [*Order] at a time and print; the order is passed
    in and the changed order is returned, with the lines printed (the
    pointers to carts and orders are taken not to be [nil]).  The amounts are
    [float64]: the type and the arithmetic on it are parameters, so what is
    proved holds whatever the machine computes. *)

(** [type Product struct] *)
Module Product.
Record t (F : Type) := mk { ID : Z; Name : string; Price : F }.
Arguments mk {F} ID Name Price.
Arguments ID {F} _.
Arguments Name {F} _.
Arguments Price {F} _.
End Product.

(** [type CartItem struct] *)
Module CartItem.
Record t (F : Type) := mk { Product : Product.t F; Quantity : Z }.
Arguments mk {F} Product Quantity.
Arguments Product {F} _.
Arguments Quantity {F} _.
End CartItem.

(** [type Cart struct] *)
Module Cart.
Record t (F : Type) := mk { Items : list (CartItem.t F) }.
Arguments mk {F} Items.
Arguments Items {F} _.
End Cart.

(** [type PaymentMethod string] *)
Definition PaymentMethod := string.
Definition PaymentCard : PaymentMethod := "card".
Definition PaymentPayPal : PaymentMethod := "paypal".
Definition PaymentCash : PaymentMethod := "cash_on_delivery".

(** [type PromoCode struct] *)
Module PromoCode.
Record t (F : Type) := mk { Code : string; DiscountPercent : F }.
Arguments mk {F} Code DiscountPercent.
Arguments Code {F} _.
Arguments DiscountPercent {F} _.
End PromoCode.

(** [type Order struct]; [Cart] is a copy of the cart the order was made
    from, which the program never appends to. *)
Module Order.
Record t (F : Type) := mk {
  ID : Z;
  CustomerName : string;
  Address : string;
  Cart : Cart.t F;
  PaymentMethod : PaymentMethod;
  TotalAmount : F;
  Status : string;
  Cancelled : bool
}.
Arguments mk {F} ID CustomerName Address Cart PaymentMethod TotalAmount
  Status Cancelled.
Arguments ID {F} _.
Arguments CustomerName {F} _.
Arguments Address {F} _.
Arguments Cart {F} _.
Arguments PaymentMethod {F} _.
Arguments TotalAmount {F} _.
Arguments Status {F} _.
Arguments Cancelled {F} _.
End Order.

(** [func (ns *NotificationService) Notify(msg string)]: the line printed. *)
Definition Notify (msg : string) : string :=
  "Notification: " +:+ msg +:+ newline.

(** The arithmetic of [float64]: the constant [0.0], the statement
    [total += price * float64(quantity)], the expression
    [total * (percent / 100)], subtraction, and the format [%.2f]. *)
Class Float64 (F : Type) := {
  f64_zero : F;
  f64_addProduct : F -> F -> Z -> F;
  f64_discount : F -> F -> F;
  f64_sub : F -> F -> F;
  f64_format2 : F -> string
}.

Section Checkout.
Context `{Float64 F}.

(** [func (c *Cart) AddProduct(p Product, qty int)] *)
Definition AddProduct (c : Cart.t F) (p : Product.t F) (qty : Z) : Cart.t F :=
  Cart.mk (Cart.Items c ++ [CartItem.mk p qty]).

(** [func (c *Cart) GetTotal() float64] *)
Definition GetTotal (c : Cart.t F) : F :=
  foldl (fun total item =>
           f64_addProduct total (Product.Price (CartItem.Product item))
             (CartItem.Quantity item))
        f64_zero (Cart.Items c).

(** [func (op *OrderProcessor) CreateCart() *Cart] *)
Definition CreateCart : Cart.t F := Cart.mk [].

(** [func (op *OrderProcessor) CreateOrder(cart, name, address,
    paymentMethod) *Order], from the processor's [NextOrderID]: the order and
    the next ID, or [None] for [panic("Cart is empty")].  [TotalAmount] has
    its zero value. *)
Definition CreateOrder (NextOrderID : Z) (cart : Cart.t F)
    (name address : string) (paymentMethod : PaymentMethod)
    : option (Order.t F * Z) :=
  if decide (length (Cart.Items cart) = 0%nat) then None
  else
    Some (Order.mk NextOrderID name address cart paymentMethod f64_zero
            "created" false,
          wrapInt (NextOrderID + 1)).

(** [func (op *OrderProcessor) simulatePayment(method) bool]: the line
    printed; the result is always [true]. *)
Definition simulatePayment (method : PaymentMethod) : string * bool :=
  ("Processing payment via " +:+ method +:+ "..." +:+ newline, true).

(** [func (op *OrderProcessor) Pay(order *Order, promo *PromoCode) error]:
    the error, the order afterwards and the lines printed; a [nil] promo is
    [None]. *)
Definition Pay (order : Order.t F) (promo : option (PromoCode.t F))
    : error * Order.t F * list string :=
  if Order.Cancelled order then (Some "order cancelled", order, [])
  else
    let '(line, ok) := simulatePayment (Order.PaymentMethod order) in
    if negb ok then (Some "payment failed", order, [line])
    else
      let total := GetTotal (Order.Cart order) in
      let '(total, promoLines) :=
        match promo with
        | Some promo =>
            let discount :=
              f64_discount total (PromoCode.DiscountPercent promo) in
            (f64_sub total discount,
             [Notify ("Promo code " +:+ PromoCode.Code promo
                      +:+ " applied. Discount: " +:+ f64_format2 discount)])
        | None => (total, [])
        end in
      (None,
       Order.mk (Order.ID order) (Order.CustomerName order)
         (Order.Address order) (Order.Cart order)
         (Order.PaymentMethod order) total "paid" (Order.Cancelled order),
       line :: promoLines
       ++ [Notify ("Payment successful. Total: " +:+ f64_format2 total)]).

(** [func (op *OrderProcessor) ProcessAndShip(order *Order) error] *)
Definition ProcessAndShip (order : Order.t F)
    : error * Order.t F * list string :=
  if decide (Order.Status order ≠ "paid") then
    (Some "payment not confirmed", order, [])
  else
    (None,
     Order.mk (Order.ID order) (Order.CustomerName order)
       (Order.Address order) (Order.Cart order) (Order.PaymentMethod order)
       (Order.TotalAmount order) "shipped" (Order.Cancelled order),
     [Notify "Order is being processed at the warehouse";
      Notify ("Order #" +:+ pretty (Order.ID order)
              +:+ " shipped to address: " +:+ Order.Address order)]).

(** [func (op *OrderProcessor) CancelOrder(order *Order)] *)
Definition CancelOrder (order : Order.t F) : Order.t F * list string :=
  if decide (Order.Status order = "paid" ∨ Order.Status order = "shipped")
  then (order, ["Cannot cancel paid order" +:+ newline])
  else
    (Order.mk (Order.ID order) (Order.CustomerName order)
       (Order.Address order) (Order.Cart order) (Order.PaymentMethod order)
       (Order.TotalAmount order) "cancelled" true,
     [Notify "Order cancelled"]).

(** A call on an order, and the order after a call and after calls made one
    after the other, results and output dropped. *)
Inductive Action :=
  | DoPay (promo : option (PromoCode.t F))
  | DoProcessAndShip
  | DoCancelOrder.

Definition act (order : Order.t F) (a : Action) : Order.t F :=
  match a with
  | DoPay promo => (Pay order promo).1.2
  | DoProcessAndShip => (ProcessAndShip order).1.2
  | DoCancelOrder => (CancelOrder order).1
  end.

Definition actAll (order : Order.t F) (actions : list Action) : Order.t F :=
  foldl act order actions.

(** The statuses the methods give, and how the [Cancelled] flag goes with
    them. *)
Definition statusInOrder (order : Order.t F) : Prop :=
  Order.Status order ∈ ["created"; "paid"; "shipped"; "cancelled"]
  ∧ (Order.Cancelled order = true ↔ Order.Status order = "cancelled").

End Checkout.

(** Amounts in whole units, for examples: one way to read the arithmetic. *)
#[export] Instance wholeUnits : Float64 Z := {|
  f64_zero := 0%Z;
  f64_addProduct total price quantity := (total + price * quantity)%Z;
  f64_discount total percent := (total * percent / 100)%Z;
  f64_sub := Z.sub;
  f64_format2 := pretty
|}.

(** The second cart and order of [main]. *)
Definition demoCart : Cart.t Z :=
  AddProduct CreateCart (Product.mk 1 "Smartphone" 50000%Z) 1.
Definition demoOrder : Order.t Z :=
  Order.mk 2 "Maria" "5 Pushkin St" demoCart PaymentCash 0%Z "created" false.

(** ** Lemmas on the table *)

Ltac in_table :=
  unfold spec_table; rewrite !elem_of_cons; repeat first [ by left | right ].

Lemma index2_table s e t : index2 s e = Some t ↔ (s, e, t) ∈ spec_table.
Proof.
  split.
  - unfold index2. destruct (transitions !! s) as [inner|] eqn:Hs; [|done].
    intros He. apply elem_of_list_to_map_2 in Hs.
    repeat (apply elem_of_cons in Hs as [Hs | Hs];
            [ apply pair_equal_spec in Hs as [-> ->];
              apply elem_of_list_to_map_2 in He;
              repeat (apply elem_of_cons in He as [He | He];
                      [ apply pair_equal_spec in He as [-> ->]; in_table | ]);
              by apply elem_of_nil in He | ]).
    by apply elem_of_nil in Hs.
  - intros H. unfold spec_table in H.
    repeat (apply elem_of_cons in H as [H | H];
            [ injection H as -> -> ->; vm_compute; reflexivity | ]).
    by apply elem_of_nil in H.
Qed.

Lemma index2_unlisted s e :
  (∀ t, (s, e, t) ∉ spec_table) -> index2 s e = None.
Proof.
  intros H. destruct (index2 s e) as [t|] eqn:Ht; [|done].
  apply index2_table in Ht. by destruct (H t).
Qed.

Lemma index2_TripCancelled e : index2 StateTripCancelled e = None.
Proof.
  apply index2_unlisted. intros t H. unfold spec_table in H.
  repeat (apply elem_of_cons in H as [H | H]; [ discriminate H | ]).
  by apply elem_of_nil in H.
Qed.

(** ** Lemmas on sequential execution *)

Lemma run_bind {A B} (t : Thread A) (f : A -> Thread B) w :
  run (t ≫= f) w = run (f (run t w).2) (run t w).1.
Proof.
  revert w. induction t as [a | upd k IH]; intros w; [done|].
  cbn. apply IH.
Qed.

Lemma run_CanTransition e w :
  run (CanTransition e) w
  = (w, bool_decide (is_Some (index2 (State (order w)) e))).
Proof. reflexivity. Qed.

Lemma run_Transition_reject e w :
  index2 (State (order w)) e = None ->
  run (Transition e) w = (w, Some (invalidTransition (State (order w)) e)).
Proof.
  intros H. unfold Transition. rewrite run_bind, run_CanTransition.
  cbn [fst snd]. rewrite H. reflexivity.
Qed.

Lemma run_Transition_accept e w t :
  index2 (State (order w)) e = Some t ->
  run (Transition e) w
  = ((run (effectMessage e)
        (mkWorld (set_State (order w) t)
           (trace w ++ [Printed (transitionRecord (ID (order w))
                                   (State (order w)) t);
                        StateSet t]))).1,
     None).
Proof.
  intros H. unfold Transition. rewrite run_bind, run_CanTransition.
  cbn [fst snd]. rewrite H.
  change (bool_decide (is_Some (Some t))) with true. cbn [negb].
  rewrite run_bind. cbn [run readState fst snd].
  unfold index2_zero. rewrite H. cbn [default id].
  rewrite !run_bind.
  cbn [run readID readState print writeState fst snd order trace].
  rewrite <- app_assoc. reflexivity.
Qed.

Lemma run_effectMessage_listed e m w :
  (e, m) ∈ messages ->
  run (effectMessage e) w
  = (mkWorld (order w) (trace w ++ [Printed (m +:+ newline)]), tt).
Proof.
  intros H. unfold messages in H.
  repeat (apply elem_of_cons in H as [H | H];
          [ apply pair_equal_spec in H as [-> ->]; reflexivity | ]).
  by apply elem_of_nil in H.
Qed.

Lemma run_effectMessage_other e w :
  e ∉ messages.*1 -> run (effectMessage e) w = (w, tt).
Proof.
  intros H. unfold effectMessage.
  repeat (case_decide;
          [ exfalso; apply H; unfold messages; cbn [fmap list_fmap fst];
            rewrite !elem_of_cons; tauto | ]).
  reflexivity.
Qed.

Lemma app_snoc {A} (l l' : list A) (x y : A) :
  (l ++ x :: y :: l' = (l ++ [x]) ++ y :: l')%list.
Proof. by rewrite <- app_assoc. Qed.

Lemma set_State_same r : set_State r (State r) = r.
Proof. by destruct r. Qed.

(** A successful call with one of the ten events of the [switch]: the
    record, the store to [State], then the message. *)
Lemma run_Transition_listed e m w t :
  index2 (State (order w)) e = Some t ->
  (e, m) ∈ messages ->
  run (Transition e) w
  = (mkWorld (set_State (order w) t)
       (trace w ++ [Printed (transitionRecord (ID (order w))
                               (State (order w)) t);
                    StateSet t;
                    Printed (m +:+ newline)]),
     None).
Proof.
  intros Ht Hm. rewrite (run_Transition_accept _ _ _ Ht).
  rewrite (run_effectMessage_listed _ _ _ Hm). cbn [fst order trace].
  by rewrite <- app_assoc.
Qed.

Lemma run_Transition_ChangeCar w t :
  index2 (State (order w)) EventChangeCar = Some t ->
  run (Transition EventChangeCar) w
  = (mkWorld (set_State (order w) t)
       (trace w ++ [Printed (transitionRecord (ID (order w))
                               (State (order w)) t);
                    StateSet t]),
     None).
Proof. intros Ht. by rewrite (run_Transition_accept _ _ _ Ht). Qed.

Lemma run_submitAll_cons e es w :
  run (submitAll (e :: es)) w
  = let r1 := run (Transition e) w in
    let r2 := run (submitAll es) r1.1 in
    (r2.1, r1.2 :: r2.2).
Proof. cbn [submitAll]. rewrite !run_bind. reflexivity. Qed.

Lemma run_SubmitRating rating w :
  run (SubmitRating rating) w
  = if decide (State (order w) ≠ StateIdle) then (w, Some errNotEligible)
    else if decide (rating < 1 ∨ rating > 5)%Z then (w, Some errOutOfRange)
    else (mkWorld (set_Rating (order w) rating)
            (trace w ++ [RatingSet rating;
                         Printed ("Thank you for the rating: "
                                  +:+ pretty rating +:+ newline)]),
          None).
Proof.
  unfold SubmitRating. rewrite run_bind. cbn [run readState fst snd].
  repeat case_decide; try reflexivity.
  rewrite !run_bind. cbn [run writeRating print fst snd order trace].
  by rewrite <- app_assoc.
Qed.

(** ** The engine: [CanTransition] and [Transition] *)

(** C1. For every state and event, [CanTransition] on an order returns true
    exactly when the transition table defines a target for the order's state
    and the event; [Transition] returns [nil] exactly when [CanTransition] is
    true; and a failing [Transition] returns the invalid-transition error and
    leaves the order (every field) and the output as they were. *)
Theorem C1_transition_iff_table (e : RideEvent) (w : World) :
  ((run (CanTransition e) w).2 = true
     ↔ ∃ t, index2 (State (order w)) e = Some t)
  ∧ ((run (Transition e) w).2 = None ↔ (run (CanTransition e) w).2 = true)
  ∧ ((run (Transition e) w).2 ≠ None ->
       run (Transition e) w
       = (w, Some (invalidTransition (State (order w)) e))).
Proof.
  rewrite run_CanTransition. cbn [snd].
  destruct (index2 (State (order w)) e) as [t|] eqn:Ht.
  - rewrite (run_Transition_accept _ _ _ Ht). cbn [snd].
    repeat split; eauto. intros H. by destruct H.
  - rewrite (run_Transition_reject _ _ Ht). cbn [snd].
    repeat split; try done. by intros [t Hx].
Qed.

Lemma C1_transition_iff_table_witness :
  run (Transition EventStartTrip)
    (mkWorld (mkRideOrder "RIDE-001" StateIdle "" "" 0) [])
  = (mkWorld (mkRideOrder "RIDE-001" StateIdle "" "" 0) [],
     Some (invalidTransition StateIdle EventStartTrip)).
Proof.
  apply (C1_transition_iff_table EventStartTrip
           (mkWorld (mkRideOrder "RIDE-001" StateIdle "" "" 0) [])).
  vm_compute. discriminate.
Defined.

(** C2. The transition table holds exactly the fourteen rows of section 4.1:
    the lookup for (state, event) finds a target exactly for the listed
    pairs, and then the listed target; TripCancelled has no row; and
    [Transition] rejects every pair that is not listed, changing nothing. *)
Theorem C2_table_contents :
  (∀ s e t, index2 s e = Some t ↔ (s, e, t) ∈ spec_table)
  ∧ (∀ e, index2 StateTripCancelled e = None)
  ∧ (∀ e w, (∀ t, (State (order w), e, t) ∉ spec_table) ->
       (run (CanTransition e) w).2 = false
       ∧ run (Transition e) w
         = (w, Some (invalidTransition (State (order w)) e))).
Proof.
  split; [apply index2_table|]. split; [apply index2_TripCancelled|].
  intros e w H. apply index2_unlisted in H.
  rewrite run_CanTransition, (run_Transition_reject _ _ H). cbn [snd].
  by rewrite H.
Qed.

Lemma C2_table_contents_witness :
  (run (CanTransition EventCarDelayed)
     (mkWorld (mkRideOrder "RIDE-003" StateCarArrived "" "" 0) [])).2 = false
  ∧ run (Transition EventCarDelayed)
      (mkWorld (mkRideOrder "RIDE-003" StateCarArrived "" "" 0) [])
    = (mkWorld (mkRideOrder "RIDE-003" StateCarArrived "" "" 0) [],
       Some (invalidTransition StateCarArrived EventCarDelayed)).
Proof.
  apply (proj2 (proj2 C2_table_contents) EventCarDelayed
           (mkWorld (mkRideOrder "RIDE-003" StateCarArrived "" "" 0) [])).
  intros t H. cbn [order State] in H. unfold spec_table in H.
  repeat (apply elem_of_cons in H as [H | H]; [ discriminate H | ]).
  by apply elem_of_nil in H.
Defined.

(** C4. The two self-loops are transitions like any other.  [ChangeCar] in
    CarSelected and [PaymentFailed] in TripCompleted succeed, leave the order
    as it was (the state stored is the state it had), and are not silent: the
    transition record is printed, and the state is stored again;
    [PaymentFailed] prints its message as well. *)
Theorem C4_self_loops (w : World) :
  (State (order w) = StateCarSelected ->
     run (Transition EventChangeCar) w
     = (mkWorld (order w)
          (trace w
           ++ [Printed (transitionRecord (ID (order w)) StateCarSelected
                          StateCarSelected);
               StateSet StateCarSelected]),
        None))
  ∧ (State (order w) = StateTripCompleted ->
     run (Transition EventPaymentFailed) w
     = (mkWorld (order w)
          (trace w
           ++ [Printed (transitionRecord (ID (order w)) StateTripCompleted
                          StateTripCompleted);
               StateSet StateTripCompleted;
               Printed ("Payment failed. Please try again." +:+ newline)]),
        None)).
Proof.
  split; intros Hs.
  - assert (Hsame : set_State (order w) StateCarSelected = order w)
      by (rewrite <- Hs; apply set_State_same).
    rewrite (run_Transition_ChangeCar w StateCarSelected)
      by (rewrite Hs; vm_compute; reflexivity).
    by rewrite Hsame, Hs.
  - assert (Hsame : set_State (order w) StateTripCompleted = order w)
      by (rewrite <- Hs; apply set_State_same).
    rewrite (run_Transition_listed EventPaymentFailed
               "Payment failed. Please try again." w StateTripCompleted).
    + by rewrite Hsame, Hs.
    + rewrite Hs. vm_compute. reflexivity.
    + unfold messages. rewrite !elem_of_cons. tauto.
Qed.

Lemma C4_self_loops_witness :
  run (Transition EventChangeCar)
    (mkWorld (mkRideOrder "RIDE-001" StateCarSelected "" "" 0) [])
  = (mkWorld (mkRideOrder "RIDE-001" StateCarSelected "" "" 0)
       [Printed (transitionRecord "RIDE-001" StateCarSelected
                   StateCarSelected);
        StateSet StateCarSelected],
     None)
  ∧ run (Transition EventPaymentFailed)
      (mkWorld (mkRideOrder "RIDE-001" StateTripCompleted "" "" 0) [])
    = (mkWorld (mkRideOrder "RIDE-001" StateTripCompleted "" "" 0)
         [Printed (transitionRecord "RIDE-001" StateTripCompleted
                     StateTripCompleted);
          StateSet StateTripCompleted;
          Printed ("Payment failed. Please try again." +:+ newline)],
       None).
Proof.
  split.
  - apply (C4_self_loops
             (mkWorld (mkRideOrder "RIDE-001" StateCarSelected "" "" 0) [])).
    reflexivity.
  - apply (C4_self_loops
             (mkWorld (mkRideOrder "RIDE-001" StateTripCompleted "" "" 0) [])).
    reflexivity.
Defined.

(** C5 (as the code behaves at the failing input).  A successful
    [Transition] with [ChangeCar] prints the transition record and stores the
    state, and then prints nothing: the [switch] has no case for
    [EventChangeCar], so no event-specific message follows. *)
Theorem C5_ChangeCar_prints_no_message :
  run (Transition EventChangeCar)
    (mkWorld (mkRideOrder "RIDE-001" StateCarSelected "" "" 0) [])
  = (mkWorld (mkRideOrder "RIDE-001" StateCarSelected "" "" 0)
       [Printed ("Order RIDE-001: CarSelected -> CarSelected" +:+ newline);
        StateSet StateCarSelected],
     None).
Proof. vm_compute. reflexivity. Qed.

(** For the ten events the [switch] lists, every successful call does the
    three things in order: the record with the order id, the old and the new
    state; the store of the new state; the message of the event. *)
Lemma Transition_effects_in_order e m w t :
  (State (order w), e, t) ∈ spec_table ->
  (e, m) ∈ messages ->
  run (Transition e) w
  = (mkWorld (set_State (order w) t)
       (trace w ++ [Printed (transitionRecord (ID (order w))
                               (State (order w)) t);
                    StateSet t;
                    Printed (m +:+ newline)]),
     None).
Proof. intros Ht. apply run_Transition_listed. by apply index2_table. Qed.

(** Every row of the table except the [ChangeCar] one has an event with a
    message. *)
Lemma table_event_has_message s e t :
  (s, e, t) ∈ spec_table -> e ≠ EventChangeCar -> ∃ m, (e, m) ∈ messages.
Proof.
  intros H Hne. unfold spec_table in H.
  repeat (apply elem_of_cons in H as [H | H];
          [ injection H as -> -> ->;
            first [ by destruct Hne
                  | eexists; unfold messages; rewrite !elem_of_cons;
                    repeat first [ by left | right ] ] | ]).
  by apply elem_of_nil in H.
Qed.

(** So every successful call with an event other than [ChangeCar] emits the
    record, the store and the message of its event, in this order. *)
Lemma Transition_effects_except_ChangeCar e w :
  (run (Transition e) w).2 = None -> e ≠ EventChangeCar ->
  ∃ t m, (State (order w), e, t) ∈ spec_table ∧ (e, m) ∈ messages
    ∧ run (Transition e) w
      = (mkWorld (set_State (order w) t)
           (trace w ++ [Printed (transitionRecord (ID (order w))
                                   (State (order w)) t);
                        StateSet t;
                        Printed (m +:+ newline)]),
         None).
Proof.
  intros Hok Hne.
  destruct (index2 (State (order w)) e) as [t|] eqn:Ht.
  - apply index2_table in Ht.
    destruct (table_event_has_message _ _ _ Ht Hne) as [m Hm].
    exists t, m. split; [done|]. split; [done|].
    by apply Transition_effects_in_order.
  - by rewrite (run_Transition_reject _ _ Ht) in Hok.
Qed.

(** C6. TripCancelled is absorbing: in that state [CanTransition] is false
    for every event, every [Transition] fails and changes nothing, and so no
    sequence of events submitted one after the other changes the order: each
    call fails and the order stays in TripCancelled. *)
Theorem C6_TripCancelled_absorbing (w : World) :
  State (order w) = StateTripCancelled ->
  (∀ e, (run (CanTransition e) w).2 = false
        ∧ run (Transition e) w
          = (w, Some (invalidTransition StateTripCancelled e)))
  ∧ (∀ events, (run (submitAll events) w).1 = w
               ∧ Forall (λ err, err ≠ None) (run (submitAll events) w).2).
Proof.
  intros Hs.
  assert (Hnone : ∀ e, index2 (State (order w)) e = None).
  { intros e. rewrite Hs. apply index2_TripCancelled. }
  assert (Hone : ∀ e, run (Transition e) w
                      = (w, Some (invalidTransition StateTripCancelled e))).
  { intros e. rewrite (run_Transition_reject _ _ (Hnone e)). by rewrite Hs. }
  split.
  - intros e. split; [|apply Hone].
    rewrite run_CanTransition. cbn [snd]. by rewrite Hnone.
  - induction events as [|e events [IH1 IH2]]; [by split|].
    rewrite run_submitAll_cons, Hone. cbn [fst snd]. split; [done|].
    by constructor.
Qed.

Lemma C6_TripCancelled_absorbing_witness :
  (run (submitAll [EventSelectCar; EventCancelOrder; EventPaymentSuccess])
     (mkWorld (mkRideOrder "RIDE-002" StateTripCancelled "" "" 0) [])).1
  = mkWorld (mkRideOrder "RIDE-002" StateTripCancelled "" "" 0) [].
Proof.
  apply (C6_TripCancelled_absorbing
           (mkWorld (mkRideOrder "RIDE-002" StateTripCancelled "" "" 0) [])).
  reflexivity.
Defined.

(** C7. From Idle, the events SelectCar, ConfirmOrder, CarArrived, StartTrip,
    EndTrip, PaymentSuccess submitted in this order all succeed.  Each call
    prints its record and its message and stores its target, so the order
    goes through CarSelected, OrderConfirmed, CarArrived, InTrip and
    TripCompleted, in this order, and is back in Idle at the end with every
    other field as it was. *)
Theorem C7_happy_path_cycle (w : World) :
  State (order w) = StateIdle ->
  (run (submitAll [EventSelectCar; EventConfirmOrder; EventCarArrived;
                   EventStartTrip; EventEndTrip; EventPaymentSuccess]) w).2
  = [None; None; None; None; None; None]
  ∧ order (run (submitAll [EventSelectCar; EventConfirmOrder;
                           EventCarArrived; EventStartTrip; EventEndTrip;
                           EventPaymentSuccess]) w).1
    = order w
  ∧ State (order (run (submitAll [EventSelectCar; EventConfirmOrder;
                                  EventCarArrived; EventStartTrip;
                                  EventEndTrip; EventPaymentSuccess]) w).1)
    = StateIdle
  ∧ trace (run (submitAll [EventSelectCar; EventConfirmOrder;
                           EventCarArrived; EventStartTrip; EventEndTrip;
                           EventPaymentSuccess]) w).1
    = (trace w
      ++ [Printed (transitionRecord (ID (order w)) StateIdle
                     StateCarSelected);
          StateSet StateCarSelected;
          Printed ("Car selected." +:+ newline);
          Printed (transitionRecord (ID (order w)) StateCarSelected
                     StateOrderConfirmed);
          StateSet StateOrderConfirmed;
          Printed ("Order confirmed. Car is on the way." +:+ newline);
          Printed (transitionRecord (ID (order w)) StateOrderConfirmed
                     StateCarArrived);
          StateSet StateCarArrived;
          Printed ("Car has arrived." +:+ newline);
          Printed (transitionRecord (ID (order w)) StateCarArrived
                     StateInTrip);
          StateSet StateInTrip;
          Printed ("Trip started." +:+ newline);
          Printed (transitionRecord (ID (order w)) StateInTrip
                     StateTripCompleted);
          StateSet StateTripCompleted;
          Printed ("Trip completed. Payment pending." +:+ newline);
          Printed (transitionRecord (ID (order w)) StateTripCompleted
                     StateIdle);
          StateSet StateIdle;
          Printed ("Payment successful." +:+ newline)])%list
  ∧ State (order (run (submitAll [EventSelectCar]) w).1) = StateCarSelected
  ∧ State (order (run (submitAll [EventSelectCar; EventConfirmOrder]) w).1)
    = StateOrderConfirmed
  ∧ State (order (run (submitAll [EventSelectCar; EventConfirmOrder;
                                  EventCarArrived]) w).1)
    = StateCarArrived
  ∧ State (order (run (submitAll [EventSelectCar; EventConfirmOrder;
                                  EventCarArrived; EventStartTrip]) w).1)
    = StateInTrip
  ∧ State (order (run (submitAll [EventSelectCar; EventConfirmOrder;
                                  EventCarArrived; EventStartTrip;
                                  EventEndTrip]) w).1)
    = StateTripCompleted.
Proof.
  destruct w as [[id s car drv rt] tr]. cbn [order State trace ID].
  intros ->. rewrite !app_snoc. vm_compute. done.
Qed.

Lemma C7_happy_path_cycle_witness :
  (run (submitAll [EventSelectCar; EventConfirmOrder; EventCarArrived;
                   EventStartTrip; EventEndTrip; EventPaymentSuccess])
     (mkWorld (mkRideOrder "RIDE-001" StateIdle "" "" 0) [])).2
  = [None; None; None; None; None; None].
Proof.
  apply (C7_happy_path_cycle
           (mkWorld (mkRideOrder "RIDE-001" StateIdle "" "" 0) [])).
  reflexivity.
Defined.

(** ** Rating *)

(** C3. [SubmitRating] fails with the not-eligible error unless the order is
    in Idle; in Idle it fails with the out-of-range error unless the rating
    is between 1 and 5; otherwise it stores the rating and succeeds.  A
    rating outside 1..5 is never accepted, and the state of the order is the
    same after the call in every case. *)
Theorem C3_SubmitRating (rating : Z) (w : World) :
  (State (order w) ≠ StateIdle ->
     run (SubmitRating rating) w = (w, Some errNotEligible))
  ∧ (State (order w) = StateIdle -> ¬ (1 ≤ rating ≤ 5)%Z ->
     run (SubmitRating rating) w = (w, Some errOutOfRange))
  ∧ (State (order w) = StateIdle -> (1 ≤ rating ≤ 5)%Z ->
     (run (SubmitRating rating) w).2 = None
     ∧ Rating (order (run (SubmitRating rating) w).1) = rating
     ∧ order (run (SubmitRating rating) w).1 = set_Rating (order w) rating)
  ∧ (¬ (1 ≤ rating ≤ 5)%Z -> (run (SubmitRating rating) w).2 ≠ None)
  ∧ State (order (run (SubmitRating rating) w).1) = State (order w).
Proof.
  rewrite run_SubmitRating.
  repeat case_decide; cbn [fst snd order State Rating set_Rating];
    repeat split; intros; try done; try lia.
Qed.

Lemma C3_SubmitRating_witness :
  (run (SubmitRating 5)
     (mkWorld (mkRideOrder "RIDE-001" StateIdle "" "" 0) [])).2 = None
  ∧ run (SubmitRating 5)
      (mkWorld (mkRideOrder "RIDE-001" StateTripCompleted "" "" 0) [])
    = (mkWorld (mkRideOrder "RIDE-001" StateTripCompleted "" "" 0) [],
       Some errNotEligible)
  ∧ run (SubmitRating 6)
      (mkWorld (mkRideOrder "RIDE-001" StateIdle "" "" 0) [])
    = (mkWorld (mkRideOrder "RIDE-001" StateIdle "" "" 0) [],
       Some errOutOfRange).
Proof.
  split; [|split].
  - apply (C3_SubmitRating 5
             (mkWorld (mkRideOrder "RIDE-001" StateIdle "" "" 0) []));
      [reflexivity | lia].
  - apply (C3_SubmitRating 5
             (mkWorld (mkRideOrder "RIDE-001" StateTripCompleted "" "" 0) [])).
    discriminate.
  - apply (C3_SubmitRating 6
             (mkWorld (mkRideOrder "RIDE-001" StateIdle "" "" 0) []));
      [reflexivity | lia].
Defined.

(** C10. [SubmitRating] checks eligibility first: outside Idle the error is
    the not-eligible one whatever the rating, also for a rating outside 1..5,
    so the out-of-range error is never returned there; and whenever an error
    is returned the order, its rating included, is as it was. *)
Theorem C10_eligibility_before_range (rating : Z) (w : World) :
  (State (order w) ≠ StateIdle ->
     (run (SubmitRating rating) w).2 = Some errNotEligible
     ∧ (run (SubmitRating rating) w).2 ≠ Some errOutOfRange)
  ∧ ((run (SubmitRating rating) w).2 ≠ None ->
     (run (SubmitRating rating) w).1 = w
     ∧ Rating (order (run (SubmitRating rating) w).1) = Rating (order w)).
Proof.
  rewrite run_SubmitRating.
  repeat case_decide; cbn [fst snd]; repeat split; intros; done.
Qed.

Lemma C10_eligibility_before_range_witness :
  (run (SubmitRating 9)
     (mkWorld (mkRideOrder "RIDE-001" StateInTrip "" "" 3) [])).2
  = Some errNotEligible
  ∧ Rating (order (run (SubmitRating 9)
              (mkWorld (mkRideOrder "RIDE-001" StateIdle "" "" 3) [])).1) = 3%Z.
Proof.
  split.
  - apply (C10_eligibility_before_range 9
             (mkWorld (mkRideOrder "RIDE-001" StateInTrip "" "" 3) [])).
    discriminate.
  - apply (C10_eligibility_before_range 9
             (mkWorld (mkRideOrder "RIDE-001" StateIdle "" "" 3) [])).
    discriminate.
Defined.

(** ** The delay watcher and interleaved execution *)

Lemma steps_Ret {A} (n : nat) (x : A) w : steps n (Ret x) w = (w, Ret x).
Proof. induction n as [|n IH]; [done|]. cbn. apply IH. Qed.

Lemma steps_run {A} (n : nat) (t : Thread A) :
  within n t -> ∀ w, steps n t w = ((run t w).1, Ret (run t w).2).
Proof.
  induction 1 as [n x | n upd k _ IH]; intros w.
  - apply steps_Ret.
  - cbn. apply IH.
Qed.

Lemma within_mono {A} (n m : nat) (t : Thread A) :
  (n ≤ m)%nat -> within n t -> within m t.
Proof.
  intros Hle H. revert m Hle.
  induction H as [n x | n upd k _ IH]; intros m Hle; [constructor|].
  destruct m as [|m]; [lia|]. constructor. intros w. apply IH. lia.
Qed.

Lemma within_primitive {A} upd (x : World -> A) :
  within 1 (Step upd (fun w => Ret (x w))).
Proof. repeat constructor. Qed.

Section Scheduling.
Context {A B : Type}.
Implicit Types (a : Thread A) (b : Thread B) (w : World) (n m : nat).

Lemma within_bind n m a (f : A -> Thread B) :
  within n a -> (∀ x, within m (f x)) -> within (n + m) (a ≫= f).
Proof.
  intros H Hf. induction H as [n x | n upd k _ IH].
  - apply (within_mono m); [lia | apply Hf].
  - apply (within_step (n + m)). intros w. apply IH.
Qed.

Lemma interleave_Main n sched a b w :
  interleave (replicate n Main ++ sched) a b w
  = interleave sched (steps n a w).2 b (steps n a w).1.
Proof.
  revert a w. induction n as [|n IH]; intros a w; [done|].
  cbn. destruct (step1 a w) as [w' a']. apply IH.
Qed.

Lemma interleave_Watcher n sched a b w :
  interleave (replicate n Watcher ++ sched) a b w
  = interleave sched a (steps n b w).2 (steps n b w).1.
Proof.
  revert b w. induction n as [|n IH]; intros b w; [done|].
  cbn. destruct (step1 b w) as [w' b']. apply IH.
Qed.

Lemma interleave_Main_then_Watcher n m a b w :
  within n a -> within m b ->
  interleave (replicate n Main ++ replicate m Watcher) a b w
  = (let '(w2, ra, rb) := oneAfterTheOther a b w in (w2, Ret ra, Ret rb)).
Proof.
  intros Ha Hb. rewrite interleave_Main, (steps_run _ _ Ha). cbn [fst snd].
  rewrite <- (app_nil_r (replicate m Watcher)), interleave_Watcher.
  rewrite (steps_run _ _ Hb). reflexivity.
Qed.

Lemma interleave_Watcher_then_Main n m a b w :
  within n a -> within m b ->
  interleave (replicate m Watcher ++ replicate n Main) a b w
  = (let '(w2, rb, ra) := oneAfterTheOther b a w in (w2, Ret ra, Ret rb)).
Proof.
  intros Ha Hb. rewrite interleave_Watcher, (steps_run _ _ Hb). cbn [fst snd].
  rewrite <- (app_nil_r (replicate n Main)), interleave_Main.
  rewrite (steps_run _ _ Ha). reflexivity.
Qed.

End Scheduling.

Lemma within_effectMessage e : within 1 (effectMessage e).
Proof.
  unfold effectMessage. repeat case_decide; repeat constructor.
Qed.

Lemma within_Transition e : within 7 (Transition e).
Proof.
  unfold Transition, CanTransition.
  apply (within_bind 1 6).
  { apply (within_bind 1 0); [apply within_primitive | constructor]. }
  intros [|]; cbn [negb].
  - apply (within_bind 1 5); [apply within_primitive|]. intros s.
    apply (within_bind 1 4); [apply within_primitive|]. intros id.
    apply (within_bind 1 3); [apply within_primitive|]. intros from.
    apply (within_bind 1 2); [apply within_primitive|]. intros _.
    apply (within_bind 1 1); [apply within_primitive|]. intros _.
    apply (within_bind 1 0); [apply within_effectMessage | constructor].
  - apply (within_mono 1); [lia|].
    apply (within_bind 1 0); [apply within_primitive | constructor].
Qed.

(** On the racing schedule both calls pass the check in OrderConfirmed and
    both return [nil]; the watcher then looks its target up in the state the
    main flow has stored, finds none, and stores the empty string. *)
Lemma racing_outcome :
  interleave racingSchedule (Transition EventCarArrived)
    (Transition EventCarDelayed) order3
  = (mkWorld (mkRideOrder "RIDE-003" "" "" "" 0)
       [Printed ("Order RIDE-003: OrderConfirmed -> CarArrived" +:+ newline);
        StateSet StateCarArrived;
        Printed ("Car has arrived." +:+ newline);
        Printed ("Order RIDE-003: CarArrived -> " +:+ newline);
        StateSet "";
        Printed ("Order cancelled." +:+ newline)],
     Ret None, Ret None).
Proof. vm_compute. reflexivity. Qed.

Lemma steps_SimulateDelay_sleeping w :
  State (order w) = StateOrderConfirmed ->
  steps 2 SimulateDelay w = (w, afterSleep).
Proof.
  intros Hs. unfold SimulateDelay. cbn. rewrite Hs. reflexivity.
Qed.

Lemma within_afterSleep : within 8 afterSleep.
Proof.
  unfold afterSleep.
  apply (within_bind 1 7); [apply within_primitive|]. intros _.
  apply (within_bind 7 0); [apply within_Transition | constructor].
Qed.

Lemma run_afterSleep w :
  run afterSleep w
  = ((run (Transition EventCarDelayed)
        (mkWorld (order w)
           (trace w ++ [Printed ("Car is delayed..." +:+ newline)]))).1,
     tt).
Proof. unfold afterSleep. rewrite !run_bind. reflexivity. Qed.

Lemma index2_CarDelayed s :
  index2 s EventCarDelayed
  = if decide (s = StateOrderConfirmed) then Some StateTripCancelled
    else None.
Proof.
  destruct (index2 s EventCarDelayed) as [t|] eqn:Ht.
  - apply index2_table in Ht. unfold spec_table in Ht.
    repeat (apply elem_of_cons in Ht as [Ht | Ht];
            [ first [ discriminate Ht | by injection Ht as -> <- ] | ]).
    by apply elem_of_nil in Ht.
  - case_decide as Hs; [|done]. subst s. vm_compute in Ht. discriminate Ht.
Qed.

(** C8. The watcher submits [CarDelayed] through [Transition] like any other
    caller, and the event is judged against the state the order has when the
    call is made.  If the main flow has moved the order from OrderConfirmed
    to CarArrived while the watcher slept, the watcher's call is rejected as
    invalid and the order stays in CarArrived; [CarDelayed] succeeds only
    from OrderConfirmed, and then the order becomes TripCancelled, which is
    what the watcher does when nothing else touches the order.

    Of the watcher itself: if the order is not in OrderConfirmed when it
    starts, it does nothing at all.  If it is, then whatever the main flow
    does to the order during the sleep, the watcher prints its notice and
    what follows is exactly the call of [Transition] with [CarDelayed] on the
    order as it is then: an order still in OrderConfirmed is cancelled, and
    an order in any other state is left in that state, with nothing more
    printed, the call having returned the invalid-transition error. *)
Theorem C8_delay_watcher (w : World) :
  (State (order w) = StateCarArrived ->
     run (Transition EventCarDelayed) w
     = (w, Some (invalidTransition StateCarArrived EventCarDelayed)))
  ∧ ((run (Transition EventCarDelayed) w).2 = None ->
     State (order w) = StateOrderConfirmed
     ∧ State (order (run (Transition EventCarDelayed) w).1)
       = StateTripCancelled)
  ∧ (State (order w) = StateOrderConfirmed ->
     (run (Transition EventCarDelayed) w).2 = None
     ∧ interleave
         ([Watcher; Watcher] ++ replicate 7 Main ++ replicate 3 Watcher)
         (Transition EventCarArrived) SimulateDelay w
       = (mkWorld (set_State (order w) StateCarArrived)
            (trace w
             ++ [Printed (transitionRecord (ID (order w))
                            StateOrderConfirmed StateCarArrived);
                 StateSet StateCarArrived;
                 Printed ("Car has arrived." +:+ newline);
                 Printed ("Car is delayed..." +:+ newline)]),
          Ret None, Ret tt)
     ∧ run SimulateDelay w
       = (mkWorld (set_State (order w) StateTripCancelled)
            (trace w
             ++ [Printed ("Car is delayed..." +:+ newline);
                 Printed (transitionRecord (ID (order w))
                            StateOrderConfirmed StateTripCancelled);
                 StateSet StateTripCancelled;
                 Printed ("Order cancelled." +:+ newline)]),
          tt))
  ∧ (State (order w) ≠ StateOrderConfirmed ->
     run SimulateDelay w = (w, tt)
     ∧ ∀ (A : Type) (a : Thread A) (sched : list Turn),
         interleave (Watcher :: sched) a SimulateDelay w
         = interleave sched a (Ret tt) w)
  ∧ (State (order w) = StateOrderConfirmed ->
     ∀ (A : Type) (a : Thread A) (n : nat),
       within n a ->
       interleave
         ([Watcher; Watcher] ++ replicate n Main ++ replicate 8 Watcher)
         a SimulateDelay w
       = ((run (Transition EventCarDelayed)
             (mkWorld (order (run a w).1)
                (trace (run a w).1
                 ++ [Printed ("Car is delayed..." +:+ newline)]))).1,
          Ret (run a w).2, Ret tt)
       ∧ (State (order (run a w).1) = StateOrderConfirmed ->
          (interleave
             ([Watcher; Watcher] ++ replicate n Main ++ replicate 8 Watcher)
             a SimulateDelay w).1.1
          = mkWorld (set_State (order (run a w).1) StateTripCancelled)
              (trace (run a w).1
               ++ [Printed ("Car is delayed..." +:+ newline);
                   Printed (transitionRecord (ID (order (run a w).1))
                              StateOrderConfirmed StateTripCancelled);
                   StateSet StateTripCancelled;
                   Printed ("Order cancelled." +:+ newline)]))
       ∧ (State (order (run a w).1) ≠ StateOrderConfirmed ->
          (interleave
             ([Watcher; Watcher] ++ replicate n Main ++ replicate 8 Watcher)
             a SimulateDelay w).1.1
          = mkWorld (order (run a w).1)
              (trace (run a w).1
               ++ [Printed ("Car is delayed..." +:+ newline)])
          ∧ (run (Transition EventCarDelayed)
               (mkWorld (order (run a w).1)
                  (trace (run a w).1
                   ++ [Printed ("Car is delayed..." +:+ newline)]))).2
            = Some (invalidTransition (State (order (run a w).1))
                      EventCarDelayed))).
Proof.
  split; [|split; [|split; [|split]]].
  - intros Hs. rewrite run_Transition_reject; rewrite Hs; [done|].
    vm_compute. reflexivity.
  - destruct (index2 (State (order w)) EventCarDelayed) as [t|] eqn:Ht.
    + intros _. rewrite (run_Transition_accept _ _ _ Ht). cbn [fst].
      rewrite (run_effectMessage_listed _ "Order cancelled.")
        by (unfold messages; rewrite !elem_of_cons; tauto).
      cbn [fst order State set_State].
      apply index2_table in Ht. unfold spec_table in Ht.
      repeat (apply elem_of_cons in Ht as [Ht | Ht];
              [ first [ discriminate Ht | by injection Ht as -> <- ] | ]).
      by apply elem_of_nil in Ht.
    + rewrite (run_Transition_reject _ _ Ht). discriminate.
  - destruct w as [[id s car drv rt] tr]. cbn [order State trace]. intros ->.
    rewrite !app_snoc. repeat split; vm_compute; reflexivity.
  - intros Hs.
    assert (H1 : step1 SimulateDelay w = (w, Ret tt)).
    { unfold SimulateDelay. cbn. by case_decide. }
    split.
    + unfold SimulateDelay. cbn. by case_decide.
    + intros A a sched. cbn [interleave]. by rewrite H1.
  - intros Hs A a n Ha.
    assert (Hrun : interleave
                     ([Watcher; Watcher] ++ replicate n Main
                      ++ replicate 8 Watcher) a SimulateDelay w
                   = ((run (Transition EventCarDelayed)
                         (mkWorld (order (run a w).1)
                            (trace (run a w).1
                             ++ [Printed ("Car is delayed..."
                                          +:+ newline)]))).1,
                      Ret (run a w).2, Ret tt)).
    { change [Watcher; Watcher] with (replicate 2 Watcher).
      rewrite interleave_Watcher, (steps_SimulateDelay_sleeping _ Hs).
      cbn [fst snd]. rewrite interleave_Main, (steps_run _ _ Ha).
      cbn [fst snd].
      rewrite <- (app_nil_r (replicate 8 Watcher)), interleave_Watcher.
      rewrite (steps_run _ _ within_afterSleep). cbn [interleave fst snd].
      by rewrite run_afterSleep. }
    rewrite Hrun. cbn [fst]. split; [done|]. split.
    + intros Hs1.
      rewrite (run_Transition_listed EventCarDelayed "Order cancelled." _
                 StateTripCancelled).
      * cbn [fst order trace State ID]. rewrite Hs1.
        by rewrite <- app_assoc.
      * cbn [order State]. rewrite index2_CarDelayed. by case_decide.
      * unfold messages. rewrite !elem_of_cons. tauto.
    + intros Hs1. rewrite run_Transition_reject.
      * done.
      * cbn [order State]. rewrite index2_CarDelayed. by case_decide.
Qed.

Lemma C8_delay_watcher_witness :
  State (order (interleave
                  ([Watcher; Watcher] ++ replicate 7 Main
                   ++ replicate 3 Watcher)
                  (Transition EventCarArrived) SimulateDelay order3).1.1)
  = StateCarArrived
  ∧ (interleave
       ([Watcher; Watcher] ++ replicate 7 Main ++ replicate 8 Watcher)
       (Transition EventCarArrived) SimulateDelay order3).1.1
    = mkWorld (mkRideOrder "RIDE-003" StateCarArrived "" "" 0)
        [Printed (transitionRecord "RIDE-003" StateOrderConfirmed
                    StateCarArrived);
         StateSet StateCarArrived;
         Printed ("Car has arrived." +:+ newline);
         Printed ("Car is delayed..." +:+ newline)]
  ∧ run SimulateDelay
      (mkWorld (mkRideOrder "RIDE-004" StateInTrip "" "" 0) [])
    = (mkWorld (mkRideOrder "RIDE-004" StateInTrip "" "" 0) [], tt).
Proof.
  split; [|split].
  - destruct (C8_delay_watcher order3) as (_ & _ & H & _).
    destruct (H eq_refl) as (_ & -> & _). reflexivity.
  - destruct (C8_delay_watcher order3) as (_ & _ & _ & _ & H).
    destruct (H eq_refl _ (Transition EventCarArrived) 7%nat
                (within_Transition EventCarArrived)) as (_ & _ & Hrej).
    destruct Hrej as [-> _]; [vm_compute; discriminate|].
    vm_compute. reflexivity.
  - apply (C8_delay_watcher
             (mkWorld (mkRideOrder "RIDE-004" StateInTrip "" "" 0) [])).
    vm_compute. discriminate.
Defined.

(** ** Concurrent calls of [Transition] *)

(** C9 (as amended).  The code takes no lock: the check and the store of
    [Transition] are separate steps of the thread.  Two calls on one order
    are linearized when they do not overlap: if one call has finished before
    the other starts, in either order, the order and both results are those
    of the two calls made one after the other.  Calls that overlap are not
    mutually exclusive: from OrderConfirmed, [CarArrived] from the main flow
    and [CarDelayed] from the watcher can both pass the check and both
    return [nil]. *)
Theorem C9_linearized_without_overlap
    (ea eb : RideEvent) (w : World) (n m : nat) :
  (7 ≤ n)%nat -> (7 ≤ m)%nat ->
  interleave (replicate n Main ++ replicate m Watcher)
    (Transition ea) (Transition eb) w
  = (let '(w2, ra, rb) :=
       oneAfterTheOther (Transition ea) (Transition eb) w in
     (w2, Ret ra, Ret rb))
  ∧ interleave (replicate m Watcher ++ replicate n Main)
      (Transition ea) (Transition eb) w
    = (let '(w2, rb, ra) :=
         oneAfterTheOther (Transition eb) (Transition ea) w in
       (w2, Ret ra, Ret rb))
  ∧ ∃ sched w',
      interleave sched (Transition EventCarArrived)
        (Transition EventCarDelayed) order3
      = (w', Ret None, Ret None).
Proof.
  intros Hn Hm.
  assert (Ha : within n (Transition ea))
    by (apply (within_mono 7); [done | apply within_Transition]).
  assert (Hb : within m (Transition eb))
    by (apply (within_mono 7); [done | apply within_Transition]).
  split; [by apply interleave_Main_then_Watcher|].
  split; [by apply interleave_Watcher_then_Main|].
  eexists _, _. apply racing_outcome.
Qed.

Lemma C9_linearized_without_overlap_witness :
  interleave (replicate 7 Main ++ replicate 7 Watcher)
    (Transition EventCarArrived) (Transition EventCarDelayed) order3
  = (mkWorld (mkRideOrder "RIDE-003" StateCarArrived "" "" 0)
       [Printed ("Order RIDE-003: OrderConfirmed -> CarArrived" +:+ newline);
        StateSet StateCarArrived;
        Printed ("Car has arrived." +:+ newline)],
     Ret None,
     Ret (Some (invalidTransition StateCarArrived EventCarDelayed))).
Proof.
  destruct (C9_linearized_without_overlap EventCarArrived EventCarDelayed
              order3 7 7) as [-> _]; [lia | lia |].
  vm_compute. reflexivity.
Defined.

(** C9 as stated fails: on the racing schedule the two calls overlap, both
    return [nil] and the order ends in the empty state, which neither order
    of the two calls, made one after the other, produces. *)
Lemma C9_overlapping_calls_not_linearized :
  ¬ linearized EventCarArrived EventCarDelayed order3.
Proof.
  intros H. destruct (H _ _ _ _ racing_outcome) as [E | E];
    vm_compute in E; discriminate E.
Qed.

(** * Further properties of the ride order *)

(** ** What a call of [Transition] changes *)

Lemma run_effectMessage_order e w :
  order (run (effectMessage e) w).1 = order w.
Proof. unfold effectMessage. repeat case_decide; reflexivity. Qed.

(** The order after a call: the state is the target of the table when there
    is one, and nothing else is touched. *)
Lemma run_Transition_order e w :
  order (run (Transition e) w).1
  = match index2 (State (order w)) e with
    | Some t => set_State (order w) t
    | None => order w
    end.
Proof.
  destruct (index2 (State (order w)) e) as [t|] eqn:Ht.
  - rewrite (run_Transition_accept _ _ _ Ht). cbn [fst].
    by rewrite run_effectMessage_order.
  - by rewrite (run_Transition_reject _ _ Ht).
Qed.

Lemma run_Transition_result e w :
  (run (Transition e) w).2 = None ↔ is_Some (index2 (State (order w)) e).
Proof.
  destruct (index2 (State (order w)) e) as [t|] eqn:Ht.
  - rewrite (run_Transition_accept _ _ _ Ht). cbn [snd]. split; eauto.
  - rewrite (run_Transition_reject _ _ Ht). cbn [snd].
    split; [done | by intros [??]].
Qed.

Lemma target_in_states s e t : index2 s e = Some t -> t ∈ states.
Proof.
  intros H. apply index2_table in H. unfold spec_table in H.
  repeat (apply elem_of_cons in H as [H | H];
          [ injection H as _ _ ->; unfold states; rewrite !elem_of_cons;
            repeat first [ by left | right ] | ]).
  by apply elem_of_nil in H.
Qed.

(** X1. Calls made one after the other keep the state among the seven named
    states: if the order starts in one of them, it is in one of them after any
    sequence of events, accepted or rejected. *)
Theorem state_stays_named (events : list RideEvent) (w : World) :
  State (order w) ∈ states ->
  State (order (run (submitAll events) w).1) ∈ states.
Proof.
  revert w. induction events as [|e events IH]; intros w Hs; [done|].
  rewrite run_submitAll_cons. cbn [fst]. apply IH.
  rewrite run_Transition_order.
  destruct (index2 (State (order w)) e) as [t|] eqn:Ht; [|done].
  cbn [set_State State]. by apply (target_in_states _ _ _ Ht).
Qed.

Lemma state_stays_named_witness :
  State (order (run (submitAll [EventSelectCar; EventStartTrip;
                                EventConfirmOrder; EventCarDelayed])
                  (mkWorld (mkRideOrder "RIDE-001" StateIdle "" "" 0) [])).1)
  ∈ states.
Proof.
  apply (state_stays_named
           [EventSelectCar; EventStartTrip; EventConfirmOrder;
            EventCarDelayed]
           (mkWorld (mkRideOrder "RIDE-001" StateIdle "" "" 0) [])).
  vm_compute. left.
Defined.

Lemma submitAll_order (events : list RideEvent) (w : World) :
  order (run (submitAll events) w).1
  = set_State (order w) (State (order (run (submitAll events) w).1)).
Proof.
  revert w. induction events as [|e events IH]; intros w.
  - cbn. by rewrite set_State_same.
  - rewrite run_submitAll_cons. cbn [fst]. rewrite IH.
    rewrite run_Transition_order.
    by destruct (index2 (State (order w)) e).
Qed.

(** X2. [Transition] writes the state and nothing else: after any sequence
    of events the id, the car, the driver and the rating of the order are
    what they were. *)
Theorem Transition_keeps_other_fields (events : list RideEvent) (w : World) :
  ID (order (run (submitAll events) w).1) = ID (order w)
  ∧ CarID (order (run (submitAll events) w).1) = CarID (order w)
  ∧ Driver (order (run (submitAll events) w).1) = Driver (order w)
  ∧ Rating (order (run (submitAll events) w).1) = Rating (order w).
Proof. rewrite submitAll_order. done. Qed.

(** ** Cancelling *)

(** X3. [CancelOrder] is accepted exactly in Idle, CarSelected,
    OrderConfirmed and CarArrived, and then the order is cancelled; once the
    trip has started (InTrip, TripCompleted) and after a cancellation it is
    rejected. *)
Theorem CancelOrder_window (w : World) :
  ((run (Transition EventCancelOrder) w).2 = None
     ↔ State (order w) ∈ [StateIdle; StateCarSelected; StateOrderConfirmed;
                          StateCarArrived])
  ∧ ((run (Transition EventCancelOrder) w).2 = None ->
     State (order (run (Transition EventCancelOrder) w).1)
     = StateTripCancelled).
Proof.
  rewrite run_Transition_result, run_Transition_order.
  assert (H : ∀ t, index2 (State (order w)) EventCancelOrder = Some t
                ↔ t = StateTripCancelled
                  ∧ State (order w) ∈ [StateIdle; StateCarSelected;
                                       StateOrderConfirmed; StateCarArrived]).
  { intros t. rewrite index2_table. unfold spec_table.
    rewrite !elem_of_cons, !elem_of_nil. split.
    - intros Hin.
      repeat (destruct Hin as [Hin | Hin];
              [ first [ discriminate Hin | injection Hin as -> ->; tauto ] | ]).
      destruct Hin.
    - intros [-> Hin].
      repeat (destruct Hin as [-> | Hin]; [ tauto | ]). destruct Hin. }
  destruct (index2 (State (order w)) EventCancelOrder) as [t|] eqn:Ht.
  - destruct (proj1 (H t) eq_refl) as [-> Hin]. split; [|done].
    split; [done | eauto].
  - split; [|by intros [??]]. split; [by intros [??]|].
    intros Hin.
    pose proof (proj2 (H StateTripCancelled) (conj eq_refl Hin)). congruence.
Qed.

Lemma CancelOrder_window_witness :
  State (order (run (Transition EventCancelOrder)
                  (mkWorld (mkRideOrder "RIDE-002" StateCarSelected "" "" 0)
                     [])).1)
  = StateTripCancelled.
Proof.
  apply (CancelOrder_window
           (mkWorld (mkRideOrder "RIDE-002" StateCarSelected "" "" 0) [])).
  vm_compute. reflexivity.
Defined.

(** X4. An order that is not cancelled becomes cancelled only by one of the
    three cancelling events, [CancelOrder], [CarDelayed] and
    [EmergencyCancel], and by no other; the call then prints the record and
    "Order cancelled.". *)
Theorem cancelled_only_by_cancelling_events (e : RideEvent) (w : World) :
  State (order w) ≠ StateTripCancelled ->
  State (order (run (Transition e) w).1) = StateTripCancelled ->
  e ∈ [EventCancelOrder; EventCarDelayed; EventEmergencyCancel]
  ∧ run (Transition e) w
    = (mkWorld (set_State (order w) StateTripCancelled)
         (trace w ++ [Printed (transitionRecord (ID (order w))
                                 (State (order w)) StateTripCancelled);
                      StateSet StateTripCancelled;
                      Printed ("Order cancelled." +:+ newline)]),
       None).
Proof.
  intros Hne Hs. rewrite run_Transition_order in Hs.
  destruct (index2 (State (order w)) e) as [t|] eqn:Ht; [|done].
  cbn [set_State State] in Hs. subst t.
  assert (He : e ∈ [EventCancelOrder; EventCarDelayed; EventEmergencyCancel]).
  { apply index2_table in Ht. unfold spec_table in Ht.
    rewrite !elem_of_cons, !elem_of_nil in Ht. rewrite !elem_of_cons.
    repeat (destruct Ht as [Ht | Ht];
            [ first [ discriminate Ht | injection Ht as _ ->; tauto ] | ]).
    destruct Ht. }
  split; [done|].
  apply run_Transition_listed; [done|].
  unfold messages. rewrite !elem_of_cons in He. rewrite !elem_of_cons.
  destruct He as [-> | [-> | [-> | He]]]; [tauto | tauto | tauto |].
  by apply elem_of_nil in He.
Qed.

Lemma cancelled_only_by_cancelling_events_witness :
  EventEmergencyCancel
  ∈ [EventCancelOrder; EventCarDelayed; EventEmergencyCancel].
Proof.
  apply (cancelled_only_by_cancelling_events EventEmergencyCancel
           (mkWorld (mkRideOrder "RIDE-001" StateInTrip "" "" 0) [])).
  - discriminate.
  - vm_compute. reflexivity.
Defined.

(** ** Payment and rating *)

Lemma run_submitAll_app es1 es2 w :
  run (submitAll (es1 ++ es2)) w
  = let r1 := run (submitAll es1) w in
    let r2 := run (submitAll es2) r1.1 in
    (r2.1, (r1.2 ++ r2.2)%list).
Proof.
  revert w. induction es1 as [|e es1 IH]; intros w.
  - cbn. by destruct (run (submitAll es2) w).
  - cbn [app]. rewrite !run_submitAll_cons. cbn [fst snd]. by rewrite IH.
Qed.

(** X5. A failed payment can be retried without bound: in TripCompleted any
    number of [PaymentFailed] events are all accepted and leave the order in
    TripCompleted, and a [PaymentSuccess] after them is accepted and brings
    the order back to Idle. *)
Theorem payment_retries (n : nat) (w : World) :
  State (order w) = StateTripCompleted ->
  (run (submitAll (replicate n EventPaymentFailed)) w).2 = replicate n None
  ∧ order (run (submitAll (replicate n EventPaymentFailed)) w).1 = order w
  ∧ (run (submitAll (replicate n EventPaymentFailed
                     ++ [EventPaymentSuccess])) w).2
    = replicate (S n) None
  ∧ State (order (run (submitAll (replicate n EventPaymentFailed
                                  ++ [EventPaymentSuccess])) w).1)
    = StateIdle.
Proof.
  intros Hs.
  assert (Hloop : ∀ w, State (order w) = StateTripCompleted ->
            (run (submitAll (replicate n EventPaymentFailed)) w).2
            = replicate n None
            ∧ order (run (submitAll (replicate n EventPaymentFailed)) w).1
              = order w).
  { clear w Hs. induction n as [|n IH]; intros w Hs; [done|].
    cbn [replicate]. rewrite run_submitAll_cons. cbn [fst snd].
    assert (Ht : index2 (State (order w)) EventPaymentFailed
                 = Some StateTripCompleted)
      by (rewrite Hs; vm_compute; reflexivity).
    assert (Ho : order (run (Transition EventPaymentFailed) w).1 = order w).
    { rewrite run_Transition_order, Ht, <- Hs. apply set_State_same. }
    destruct (IH (run (Transition EventPaymentFailed) w).1) as [-> ->];
      [by rewrite Ho|].
    split; [|done].
    by rewrite (proj2 (run_Transition_result EventPaymentFailed w))
      by (rewrite Ht; eauto). }
  destruct (Hloop w Hs) as [Hr Ho]. split; [done|]. split; [done|].
  rewrite run_submitAll_app. cbn [fst snd]. rewrite Hr.
  rewrite run_submitAll_cons. cbn [fst snd run submitAll mret thread_ret].
  assert (Ht : index2 (State (order (run (submitAll
                 (replicate n EventPaymentFailed)) w).1)) EventPaymentSuccess
               = Some StateIdle)
    by (rewrite Ho, Hs; vm_compute; reflexivity).
  split.
  - rewrite (proj2 (run_Transition_result EventPaymentSuccess _))
      by (rewrite Ht; eauto).
    clear. induction n as [|n IH]; [done|]. cbn. by rewrite IH.
  - by rewrite run_Transition_order, Ht.
Qed.

Lemma payment_retries_witness :
  State (order (run (submitAll (replicate 3 EventPaymentFailed
                                ++ [EventPaymentSuccess]))
                  (mkWorld (mkRideOrder "RIDE-001" StateTripCompleted
                              "" "" 0) [])).1)
  = StateIdle.
Proof.
  apply (payment_retries 3
           (mkWorld (mkRideOrder "RIDE-001" StateTripCompleted "" "" 0) [])).
  reflexivity.
Defined.

(** X6. [SubmitRating] asks only for the state Idle: it accepts a rating on
    an order that has made no trip, it accepts a second rating, and the
    later rating replaces the earlier one. *)
Theorem rating_is_replaced (first second : Z) (w : World) :
  State (order w) = StateIdle ->
  (1 ≤ first ≤ 5)%Z -> (1 ≤ second ≤ 5)%Z ->
  (run (SubmitRating first) w).2 = None
  ∧ (run (SubmitRating second) (run (SubmitRating first) w).1).2 = None
  ∧ order (run (SubmitRating second) (run (SubmitRating first) w).1).1
    = set_Rating (order w) second.
Proof.
  intros Hs H1 H2. rewrite !run_SubmitRating.
  repeat case_decide; cbn [fst snd order State set_Rating] in *;
    try done; try lia.
Qed.

Lemma rating_is_replaced_witness :
  order (run (SubmitRating 2)
           (run (SubmitRating 4)
              (mkWorld (mkRideOrder "RIDE-009" StateIdle "" "" 0) [])).1).1
  = mkRideOrder "RIDE-009" StateIdle "" "" 2.
Proof.
  apply (rating_is_replaced 4 2
           (mkWorld (mkRideOrder "RIDE-009" StateIdle "" "" 0) []));
    [reflexivity | lia | lia].
Defined.

(** X7. A rating, once stored, is kept by every later transition, and
    [SubmitRating] never moves the order: after a rating in Idle and any
    sequence of events the rating is the one given. *)
Theorem rating_survives_transitions
    (rating : Z) (events : list RideEvent) (w : World) :
  State (order w) = StateIdle -> (1 ≤ rating ≤ 5)%Z ->
  Rating (order (run (submitAll events)
                   (run (SubmitRating rating) w).1).1) = rating
  ∧ State (order (run (SubmitRating rating) w).1) = StateIdle.
Proof.
  intros Hs Hr. rewrite submitAll_order. cbn [Rating set_State].
  rewrite run_SubmitRating.
  repeat case_decide; cbn [fst order Rating State set_Rating]; try done; lia.
Qed.

Lemma rating_survives_transitions_witness :
  Rating (order (run (submitAll [EventSelectCar; EventCancelOrder])
                   (run (SubmitRating 5)
                      (mkWorld (mkRideOrder "RIDE-001" StateIdle "" "" 0)
                         [])).1).1) = 5%Z.
Proof.
  apply (rating_survives_transitions 5 [EventSelectCar; EventCancelOrder]
           (mkWorld (mkRideOrder "RIDE-001" StateIdle "" "" 0) []));
    [reflexivity | lia].
Defined.

(** ** The watcher's test and its late call *)

(** X8. The watcher decides when it starts: if the order is not in
    OrderConfirmed at that moment, [SimulateDelay] ends after its test,
    without printing, sleeping or calling [Transition], and whatever the main
    flow does to the order afterwards, the watcher does nothing more. *)
Theorem watcher_decides_at_start {A} (sched : list Turn) (a : Thread A)
    (w : World) :
  State (order w) ≠ StateOrderConfirmed ->
  run SimulateDelay w = (w, tt)
  ∧ interleave (Watcher :: sched) a SimulateDelay w
    = interleave sched a (Ret tt) w
  ∧ (interleave (Watcher :: sched) a SimulateDelay w).1.1
    = (steps (length (filter (λ t, t = Main) sched)) a w).1.
Proof.
  intros Hs.
  assert (H1 : step1 SimulateDelay w = (w, Ret tt)).
  { unfold SimulateDelay. cbn. by case_decide. }
  split; [|split].
  - unfold SimulateDelay. cbn. by case_decide.
  - cbn [interleave]. by rewrite H1.
  - cbn [interleave]. rewrite H1. clear.
    revert a w. induction sched as [|[|] sched IH]; intros a w; [done| |].
    + rewrite filter_cons_True by done. cbn.
      destruct (step1 a w) as [w' a']. apply IH.
    + rewrite filter_cons_False by done. cbn. apply IH.
Qed.

Lemma watcher_decides_at_start_witness :
  interleave (Watcher :: replicate 7 Main ++ replicate 8 Watcher)
    (Transition EventConfirmOrder) SimulateDelay
    (mkWorld (mkRideOrder "RIDE-003" StateCarSelected "" "" 0) [])
  = interleave (replicate 7 Main ++ replicate 8 Watcher)
      (Transition EventConfirmOrder) (Ret tt)
      (mkWorld (mkRideOrder "RIDE-003" StateCarSelected "" "" 0) []).
Proof.
  apply (watcher_decides_at_start (replicate 7 Main ++ replicate 8 Watcher)
           (Transition EventConfirmOrder)
           (mkWorld (mkRideOrder "RIDE-003" StateCarSelected "" "" 0) [])).
  discriminate.
Defined.

(** X9. Whatever event the main flow submits while the watcher sleeps, the
    order ends in CarArrived when that event is [CarArrived] and in
    TripCancelled otherwise: an accepted event takes the order out of
    OrderConfirmed, so the watcher's late [CarDelayed] is rejected and changes
    nothing; a rejected one leaves it there, and the watcher cancels it. *)
Theorem race_of_watcher_and_any_event (e : RideEvent) (w : World) :
  State (order w) = StateOrderConfirmed ->
  (interleave duringSleep (Transition e) SimulateDelay w).2 = Ret tt
  ∧ (interleave duringSleep (Transition e) SimulateDelay w).1.2
    = Ret (run (Transition e) w).2
  ∧ State (order (interleave duringSleep (Transition e) SimulateDelay w).1.1)
    = (if decide (e = EventCarArrived) then StateCarArrived
       else StateTripCancelled).
Proof.
  intros Hs. unfold duringSleep.
  change [Watcher; Watcher] with (replicate 2 Watcher).
  rewrite interleave_Watcher, (steps_SimulateDelay_sleeping _ Hs).
  cbn [fst snd].
  rewrite interleave_Main, (steps_run _ _ (within_Transition e)).
  cbn [fst snd].
  rewrite <- (app_nil_r (replicate 8 Watcher)), interleave_Watcher.
  rewrite (steps_run _ _ within_afterSleep). cbn [interleave fst snd].
  split; [by rewrite run_afterSleep|]. split; [done|].
  rewrite run_afterSleep. cbn [fst]. rewrite run_Transition_order.
  cbn [order State].
  rewrite (run_Transition_order e w), Hs.
  destruct (index2 StateOrderConfirmed e) as [t|] eqn:Ht.
  - apply index2_table in Ht. unfold spec_table in Ht.
    rewrite !elem_of_cons, elem_of_nil in Ht.
    repeat (destruct Ht as [Ht | Ht];
            [ first [ discriminate Ht
                    | injection Ht as -> ->; vm_compute; reflexivity ] | ]).
    destruct Ht.
  - rewrite Hs.
    case_decide as He; [subst e; vm_compute in Ht; discriminate Ht|].
    vm_compute. reflexivity.
Qed.

Lemma race_of_watcher_and_any_event_witness :
  State (order (interleave duringSleep (Transition EventCancelOrder)
                  SimulateDelay order3).1.1)
  = StateTripCancelled.
Proof.
  apply (race_of_watcher_and_any_event EventCancelOrder order3).
  reflexivity.
Defined.

(** ** The cycle *)

(** X10. From every named state but TripCancelled the order can be brought
    back to Idle by events that are all accepted, at most six of them; from
    TripCancelled it cannot, whatever is submitted. *)
Theorem Idle_can_be_reached_again (w : World) :
  State (order w) ∈ states ->
  (∃ events, (length events ≤ 6)%nat
     ∧ Forall (λ err, err = None) (run (submitAll events) w).2
     ∧ State (order (run (submitAll events) w).1) = StateIdle)
  ↔ State (order w) ≠ StateTripCancelled.
Proof.
  intros Hin. split.
  - intros (events & _ & _ & Hidle) Hs.
    assert (Hw : (run (submitAll events) w).1 = w).
    { clear Hidle Hin. revert w Hs.
      induction events as [|e events IH]; intros w Hs; [done|].
      rewrite run_submitAll_cons. cbn [fst].
      rewrite run_Transition_reject
        by (rewrite Hs; apply index2_TripCancelled).
      cbn [fst]. by apply IH. }
    rewrite Hw, Hs in Hidle. discriminate Hidle.
  - intros Hne. destruct w as [[id s car drv rt] tr]. cbn [order State] in *.
    unfold states in Hin. rewrite !elem_of_cons, elem_of_nil in Hin.
    destruct Hin as [-> | [-> | [-> | [-> | [-> | [-> | [-> | []]]]]]]].
    + exists []. repeat split; [cbn; lia | constructor].
    + exists [EventConfirmOrder; EventCarArrived; EventStartTrip;
              EventEndTrip; EventPaymentSuccess].
      split; [cbn; lia|]. vm_compute. split; [|done]. by repeat constructor.
    + exists [EventCarArrived; EventStartTrip; EventEndTrip;
              EventPaymentSuccess].
      split; [cbn; lia|]. vm_compute. split; [|done]. by repeat constructor.
    + exists [EventStartTrip; EventEndTrip; EventPaymentSuccess].
      split; [cbn; lia|]. vm_compute. split; [|done]. by repeat constructor.
    + exists [EventEndTrip; EventPaymentSuccess].
      split; [cbn; lia|]. vm_compute. split; [|done]. by repeat constructor.
    + exists [EventPaymentSuccess].
      split; [cbn; lia|]. vm_compute. split; [|done]. by repeat constructor.
    + done.
Qed.

Lemma Idle_can_be_reached_again_witness :
  (∃ events, (length events ≤ 6)%nat
     ∧ Forall (λ err, err = None)
         (run (submitAll events)
            (mkWorld (mkRideOrder "RIDE-001" StateInTrip "" "" 0) [])).2
     ∧ State (order (run (submitAll events)
                       (mkWorld (mkRideOrder "RIDE-001" StateInTrip "" "" 0)
                          [])).1) = StateIdle).
Proof.
  apply (Idle_can_be_reached_again
           (mkWorld (mkRideOrder "RIDE-001" StateInTrip "" "" 0) [])).
  - vm_compute. do 4 right. left.
  - discriminate.
Defined.

(** * Properties of the booking registry *)

(** ** The search loop *)

Section Search.
Context {T : Type} (getID : T -> Z) (heap : gmap ptr T).
Implicit Types (l : list ptr) (p : ptr) (x : T) (id : Z) (i j k : nat).

Lemma findByID_FoundAt l i id j p x :
  findByID getID heap l i id = FoundAt j p x ->
  ∃ k, j = (i + k)%nat ∧ l !! k = Some p ∧ heap !! p = Some x
       ∧ getID x = id
       ∧ ∀ k' p' x', (k' < k)%nat -> l !! k' = Some p' ->
           heap !! p' = Some x' -> getID x' ≠ id.
Proof.
  revert i. induction l as [|p0 l IH]; intros i H; [discriminate H|].
  cbn in H. destruct (heap !! p0) as [x0|] eqn:Hp0; [|done].
  case_decide as Hid.
  - injection H as <- <- <-. exists 0%nat.
    split_and!; [lia | done | done | done |]. intros; lia.
  - destruct (IH _ H) as (k & -> & Hk & Hp & Hx & Hbefore).
    exists (S k). split_and!; [lia | done | done | done |].
    intros [|k'] p' x' Hlt Hl Hh.
    + cbn in Hl. injection Hl as <-. congruence.
    + apply (Hbefore k' p' x'); [lia | done | done].
Qed.

Lemma findByID_NotFound l i id :
  findByID getID heap l i id = NotFound
  ↔ Forall (λ p, ∃ x, heap !! p = Some x ∧ getID x ≠ id) l.
Proof.
  revert i. induction l as [|p0 l IH]; intros i; cbn.
  - split; [constructor | done].
  - rewrite Forall_cons. destruct (heap !! p0) as [x0|] eqn:Hp0.
    + case_decide as Hid.
      * split; [done|]. intros [(x & Hx & Hne) _]. congruence.
      * rewrite IH. split; [eauto | tauto].
    + split; [done|]. by intros [(x & Hx & _) _].
Qed.

Lemma findByID_NilDeref l i id :
  allocated heap l -> findByID getID heap l i id ≠ NilDeref.
Proof.
  revert i. induction l as [|p0 l IH]; intros i Hall; [discriminate|].
  apply Forall_cons in Hall as [[x0 Hx0] Hall]. cbn. rewrite Hx0.
  case_decide; [done | by apply IH].
Qed.

(** With distinct IDs, the object found is the only listed one with the
    ID. *)
Lemma findByID_listed l id k p x :
  uniqueIDs getID heap l -> allocated heap l ->
  l !! k = Some p -> heap !! p = Some x -> getID x = id ->
  findByID getID heap l 0 id = FoundAt k p x.
Proof.
  intros Huniq Hall Hk Hp Hx.
  destruct (findByID getID heap l 0 id) as [| |j q y] eqn:Hf.
  - by destruct (findByID_NilDeref l 0 id Hall).
  - apply findByID_NotFound in Hf.
    rewrite Forall_lookup in Hf. destruct (Hf _ _ Hk) as (x' & Hx' & Hne).
    congruence.
  - apply findByID_FoundAt in Hf as (k' & -> & Hk' & Hq & Hy & _).
    cbn. assert (k' = k) as -> by (eapply Huniq; eauto; congruence).
    congruence.
Qed.

End Search.

(** ** Heaps and lists of pointers *)

Lemma fresh_unallocated {T} (heap : gmap ptr T) :
  heap !! fresh (dom heap) = None.
Proof. apply not_elem_of_dom, is_fresh. Qed.

Lemma wrapInt_in_range n : (- 2 ^ 63 ≤ n ≤ maxInt)%Z -> wrapInt n = n.
Proof.
  unfold wrapInt, maxInt. intros H. rewrite Z.mod_small; lia.
Qed.

Section Lists.
Context {T : Type} (getID : T -> Z).
Implicit Types (heap : gmap ptr T) (l : list ptr) (p q : ptr) (x : T).

Lemma allocated_agree heap heap' l :
  (∀ p, p ∈ l -> is_Some (heap !! p) -> is_Some (heap' !! p)) ->
  allocated heap l -> allocated heap' l.
Proof.
  unfold allocated. rewrite !Forall_forall. intros H Hall p Hp. eauto.
Qed.

Lemma uniqueIDs_agree heap heap' l :
  (∀ p, p ∈ l -> getID <$> heap' !! p = getID <$> heap !! p) ->
  uniqueIDs getID heap l -> uniqueIDs getID heap' l.
Proof.
  intros H Hu i j p q x y Hi Hj Hp Hq Hxy.
  pose proof (H p (list_elem_of_lookup_2 _ _ _ Hi)) as Hp'.
  pose proof (H q (list_elem_of_lookup_2 _ _ _ Hj)) as Hq'.
  rewrite Hp in Hp'. rewrite Hq in Hq'. cbn in Hp', Hq'.
  destruct (heap !! p) as [x0|] eqn:Hx0; [|done].
  destruct (heap !! q) as [y0|] eqn:Hy0; [|done].
  cbn in Hp', Hq'. apply (Hu i j p q x0 y0); try done. congruence.
Qed.

Lemma idsBelow_agree heap heap' l n n' :
  (∀ p, p ∈ l -> getID <$> heap' !! p = getID <$> heap !! p) ->
  (n ≤ n')%Z ->
  idsBelow getID heap l n -> idsBelow getID heap' l n'.
Proof.
  intros H Hn Hb p x Hp Hx. pose proof (H p Hp) as Hp'.
  rewrite Hx in Hp'. cbn in Hp'.
  destruct (heap !! p) as [x0|] eqn:Hx0; [|done].
  cbn in Hp'. pose proof (Hb p x0 Hp Hx0). injection Hp' as Hp'. lia.
Qed.

Lemma uniqueIDs_snoc heap l p x n :
  uniqueIDs getID heap l -> idsBelow getID heap l n ->
  heap !! p = Some x -> (n ≤ getID x)%Z ->
  uniqueIDs getID heap (l ++ [p]).
Proof.
  intros Hu Hb Hp Hn i j p1 p2 x1 x2 Hi Hj H1 H2 Hx.
  apply lookup_snoc_Some in Hi as [[Hi1 Hi2] | [-> <-]];
    apply lookup_snoc_Some in Hj as [[Hj1 Hj2] | [-> <-]]; [| | |done].
  - by apply (Hu i j p1 p2 x1 x2).
  - pose proof (Hb p1 x1 (list_elem_of_lookup_2 _ _ _ Hi2) H1).
    assert (x2 = x) by congruence. subst. lia.
  - pose proof (Hb p2 x2 (list_elem_of_lookup_2 _ _ _ Hj2) H2).
    assert (x1 = x) by congruence. subst. lia.
Qed.

Lemma idsBelow_snoc heap l p x n n' :
  idsBelow getID heap l n -> heap !! p = Some x ->
  (getID x < n')%Z -> (n ≤ n')%Z ->
  idsBelow getID heap (l ++ [p]) n'.
Proof.
  intros Hb Hp Hx Hn q y Hq Hy.
  apply elem_of_app in Hq as [Hq | Hq].
  - pose proof (Hb q y Hq Hy). lia.
  - apply list_elem_of_singleton in Hq as ->.
    assert (y = x) by congruence. by subst.
Qed.

Lemma lookup_delete_Some l i j p :
  delete i l !! j = Some p ->
  ∃ j', l !! j' = Some p ∧ j' = (if decide (j < i)%nat then j else S j).
Proof.
  intros H. case_decide as Hlt.
  - rewrite list_lookup_delete_lt in H by done. eauto.
  - rewrite list_lookup_delete_ge in H by lia. eauto.
Qed.

Lemma uniqueIDs_delete heap l i :
  uniqueIDs getID heap l -> uniqueIDs getID heap (delete i l).
Proof.
  intros Hu j1 j2 p1 p2 x1 x2 H1 H2 Hp1 Hp2 Hx.
  apply lookup_delete_Some in H1 as (k1 & H1 & ->).
  apply lookup_delete_Some in H2 as (k2 & H2 & ->).
  pose proof (Hu _ _ _ _ _ _ H1 H2 Hp1 Hp2 Hx).
  repeat case_decide; lia.
Qed.

Lemma elem_of_delete l i p : p ∈ delete i l -> p ∈ l.
Proof.
  intros H. apply list_elem_of_lookup in H as [j Hj].
  apply lookup_delete_Some in Hj as (k & Hk & _).
  by apply list_elem_of_lookup_2 in Hk.
Qed.

Lemma idsBelow_delete heap l i n :
  idsBelow getID heap l n -> idsBelow getID heap (delete i l) n.
Proof. intros Hb p x Hp. apply Hb. by apply elem_of_delete in Hp. Qed.

Lemma allocated_delete heap l i :
  allocated heap l -> allocated heap (delete i l).
Proof.
  unfold allocated. rewrite !Forall_forall. intros H p Hp.
  apply H. by apply elem_of_delete in Hp.
Qed.

(** The search sees only the objects of the list. *)
Lemma findByID_agree heap heap' l i id :
  (∀ p, p ∈ l -> heap' !! p = heap !! p) ->
  findByID getID heap' l i id = findByID getID heap l i id.
Proof.
  revert i. induction l as [|p l IH]; intros i H; [done|].
  cbn. rewrite (H p) by left. destruct (heap !! p); [|done].
  case_decide; [done|]. apply IH. intros q Hq. apply H. by right.
Qed.

Lemma findByID_app_found heap l l' i id j p x :
  findByID getID heap l i id = FoundAt j p x ->
  findByID getID heap (l ++ l') i id = FoundAt j p x.
Proof.
  revert i. induction l as [|p0 l IH]; intros i H; [discriminate H|].
  cbn in *. destruct (heap !! p0); [|done].
  case_decide; [done|]. by apply IH.
Qed.

End Lists.

(** ** The methods keep the store consistent *)

Section RegistryFacts.
Context {Time : Type} (formatDate : Time -> string).
Implicit Types (σ : @Store Time) (admin user : ptr).

Lemma AddEvent_by_admin title date venue admin a σ :
  userObj σ !! admin = Some a -> User.Role a = RoleAdmin ->
  AddEvent title date venue admin σ
  = Return None
      (mkStore (userObj σ)
         (<[fresh (dom (eventObj σ)) :=
              Event.mk (BookingSystem.nextEventID (system σ)) title date
                venue]> (eventObj σ))
         (bookingObj σ)
         (BookingSystem.mk
            (BookingSystem.events (system σ) ++ [fresh (dom (eventObj σ))])
            (BookingSystem.users (system σ))
            (BookingSystem.bookings (system σ))
            (wrapInt (BookingSystem.nextEventID (system σ) + 1))
            (BookingSystem.nextBookingID (system σ)))
         (stdout σ
          ++ ["Event '" +:+ title +:+ "' added (ID: "
              +:+ pretty (BookingSystem.nextEventID (system σ)) +:+ ")"
              +:+ newline])).
Proof.
  intros Ha Hrole. unfold AddEvent. rewrite Ha. by case_decide.
Qed.

Lemma AddEvent_consistent title date venue admin a σ :
  consistent σ ->
  userObj σ !! admin = Some a -> User.Role a = RoleAdmin ->
  (BookingSystem.nextEventID (system σ) < maxInt)%Z ->
  ∃ σ', AddEvent title date venue admin σ = Return None σ'
    ∧ consistent σ'
    ∧ userObj σ' = userObj σ
    ∧ BookingSystem.nextEventID (system σ')
      = (BookingSystem.nextEventID (system σ) + 1)%Z
    ∧ BookingSystem.nextBookingID (system σ')
      = BookingSystem.nextBookingID (system σ).
Proof.
  intros [Hea Hba Href Heu Heb Hbu Hbb [Hce Hcb]] Ha Hrole Hlt.
  eexists. split; [by apply (AddEvent_by_admin _ _ _ _ a)|].
  assert (Hw : wrapInt (BookingSystem.nextEventID (system σ) + 1)
               = (BookingSystem.nextEventID (system σ) + 1)%Z)
    by (apply wrapInt_in_range; unfold maxInt in *; lia).
  assert (Hold : ∀ p, p ∈ BookingSystem.events (system σ) ->
            <[fresh (dom (eventObj σ)) :=
                Event.mk (BookingSystem.nextEventID (system σ)) title date
                  venue]> (eventObj σ) !! p = eventObj σ !! p).
  { intros p Hp. apply lookup_insert_ne. intros <-.
    unfold allocated in Hea. rewrite Forall_forall in Hea.
    destruct (Hea _ Hp) as [x Hx]. by rewrite fresh_unallocated in Hx. }
  split; [|by cbn]. constructor; cbn.
  - apply Forall_app. split.
    + eapply allocated_agree; [|exact Hea]. intros p Hp. by rewrite Hold.
    + constructor; [|constructor]. rewrite lookup_insert_eq. eauto.
  - done.
  - intros q b Hq. destruct (Href q b Hq) as [Hu He]. split; [done|].
    apply lookup_insert_is_Some'. by right.
  - apply (uniqueIDs_snoc _ _ _ _
             (Event.mk (BookingSystem.nextEventID (system σ)) title date venue)
             (BookingSystem.nextEventID (system σ))).
    + eapply uniqueIDs_agree; [|exact Heu]. intros p Hp. by rewrite Hold.
    + eapply idsBelow_agree; [| |exact Heb]; [|lia].
      intros p Hp. by rewrite Hold.
    + apply lookup_insert_eq.
    + cbn. lia.
  - rewrite Hw.
    apply (idsBelow_snoc _ _ _ _
             (Event.mk (BookingSystem.nextEventID (system σ)) title date venue)
             (BookingSystem.nextEventID (system σ))).
    + eapply idsBelow_agree; [| |exact Heb]; [|lia].
      intros p Hp. by rewrite Hold.
    + apply lookup_insert_eq.
    + cbn. lia.
    + lia.
  - done.
  - done.
  - rewrite Hw. unfold maxInt in *. lia.
Qed.

(** What [UpdateEvent] does for an admin, by the outcome of the search. *)
Lemma UpdateEvent_by_admin eventID title date venue admin a σ :
  userObj σ !! admin = Some a -> User.Role a = RoleAdmin ->
  UpdateEvent eventID title date venue admin σ
  = match findByID Event.ID (eventObj σ)
            (BookingSystem.events (system σ)) 0 eventID with
    | NilDeref => Panic σ
    | FoundAt _ p e =>
        Return None
          (mkStore (userObj σ)
             (<[p := Event.mk (Event.ID e) title date venue]> (eventObj σ))
             (bookingObj σ) (system σ)
             (stdout σ
              ++ ["Event ID " +:+ pretty eventID +:+ " updated" +:+ newline]))
    | NotFound => Return (Some "event not found") σ
    end.
Proof.
  intros Ha Hrole. unfold UpdateEvent. rewrite Ha. by case_decide.
Qed.

Lemma DeleteEvent_by_admin eventID admin a σ :
  userObj σ !! admin = Some a -> User.Role a = RoleAdmin ->
  DeleteEvent eventID admin σ
  = match findByID Event.ID (eventObj σ)
            (BookingSystem.events (system σ)) 0 eventID with
    | NilDeref => Panic σ
    | FoundAt i _ _ =>
        Return None
          (mkStore (userObj σ) (eventObj σ) (bookingObj σ)
             (BookingSystem.mk
                (delete i (BookingSystem.events (system σ)))
                (BookingSystem.users (system σ))
                (BookingSystem.bookings (system σ))
                (BookingSystem.nextEventID (system σ))
                (BookingSystem.nextBookingID (system σ)))
             (stdout σ
              ++ ["Event ID " +:+ pretty eventID +:+ " deleted" +:+ newline]))
    | NotFound => Return (Some "event not found") σ
    end.
Proof.
  intros Ha Hrole. unfold DeleteEvent. rewrite Ha. case_decide; [done|].
  destruct (findByID _ _ _ _ _); try done. by rewrite delete_take_drop.
Qed.

Lemma BookEvent_by_user userID eventID user u σ :
  userObj σ !! user = Some u -> User.Role u = RoleUser ->
  BookEvent userID eventID user σ
  = match findByID Event.ID (eventObj σ)
            (BookingSystem.events (system σ)) 0 eventID with
    | NilDeref => Panic σ
    | NotFound => Return (Some "event not found") σ
    | FoundAt _ targetEvent e =>
        Return None
          (mkStore (userObj σ) (eventObj σ)
             (<[fresh (dom (bookingObj σ)) :=
                  Booking.mk (BookingSystem.nextBookingID (system σ)) user
                    targetEvent StatusActive]> (bookingObj σ))
             (BookingSystem.mk
                (BookingSystem.events (system σ))
                (BookingSystem.users (system σ))
                (BookingSystem.bookings (system σ)
                 ++ [fresh (dom (bookingObj σ))])
                (BookingSystem.nextEventID (system σ))
                (wrapInt (BookingSystem.nextBookingID (system σ) + 1)))
             (stdout σ
              ++ ["Booking created: " +:+ User.Name u +:+ " -> "
                  +:+ Event.Title e +:+ " (ID: "
                  +:+ pretty (BookingSystem.nextBookingID (system σ))
                  +:+ ")" +:+ newline]))
    end.
Proof.
  intros Hu Hrole. unfold BookEvent. rewrite Hu. by case_decide.
Qed.

Lemma UpdateEvent_consistent eventID title date venue admin σ :
  consistent σ -> is_Some (userObj σ !! admin) ->
  ∃ err σ', UpdateEvent eventID title date venue admin σ = Return err σ'
    ∧ consistent σ'
    ∧ userObj σ' = userObj σ ∧ system σ' = system σ
    ∧ bookingObj σ' = bookingObj σ.
Proof.
  intros Hc [a Ha]. unfold UpdateEvent. rewrite Ha.
  case_decide; [by eauto 10|].
  destruct Hc as [Hea Hba Href Heu Heb Hbu Hbb Hcnt].
  destruct (findByID _ _ _ _ _) as [| |i p e] eqn:Hf.
  - by destruct (findByID_NilDeref _ _ _ _ _ Hea Hf).
  - eexists _, _. split; [done|]. by split; [constructor|].
  - apply findByID_FoundAt in Hf as (k & _ & Hk & Hp & Hid & _).
    assert (Hids : ∀ q, Event.ID <$> (<[p := Event.mk (Event.ID e) title date
                     venue]> (eventObj σ)) !! q
                   = Event.ID <$> eventObj σ !! q).
    { intros q. destruct (decide (p = q)) as [<-|Hne].
      - by rewrite lookup_insert_eq, Hp.
      - by rewrite lookup_insert_ne. }
    eexists _, _. split; [done|]. split; [|done]. constructor; cbn.
    + eapply allocated_agree; [|exact Hea].
      intros q _ Hq. apply lookup_insert_is_Some'. by right.
    + done.
    + intros q b Hq. destruct (Href q b Hq) as [Hu He]. split; [done|].
      apply lookup_insert_is_Some'. by right.
    + eapply uniqueIDs_agree; [|exact Heu]. intros q _. apply Hids.
    + eapply idsBelow_agree; [| |exact Heb]; [|lia]. intros q _. apply Hids.
    + done.
    + done.
    + done.
Qed.

Lemma DeleteEvent_consistent eventID admin σ :
  consistent σ -> is_Some (userObj σ !! admin) ->
  ∃ err σ', DeleteEvent eventID admin σ = Return err σ'
    ∧ consistent σ'
    ∧ userObj σ' = userObj σ ∧ eventObj σ' = eventObj σ
    ∧ bookingObj σ' = bookingObj σ
    ∧ BookingSystem.bookings (system σ') = BookingSystem.bookings (system σ)
    ∧ BookingSystem.nextEventID (system σ')
      = BookingSystem.nextEventID (system σ)
    ∧ BookingSystem.nextBookingID (system σ')
      = BookingSystem.nextBookingID (system σ).
Proof.
  intros Hc [a Ha]. unfold DeleteEvent. rewrite Ha.
  case_decide; [by eauto 15|].
  destruct Hc as [Hea Hba Href Heu Heb Hbu Hbb Hcnt].
  destruct (findByID _ _ _ _ _) as [| |i p e] eqn:Hf.
  - by destruct (findByID_NilDeref _ _ _ _ _ Hea Hf).
  - eexists _, _. split; [done|]. by split; [constructor|].
  - eexists _, _. split; [done|]. split; [|done].
    rewrite <- delete_take_drop. constructor; cbn; try done.
    + by apply allocated_delete.
    + by apply uniqueIDs_delete.
    + by apply idsBelow_delete.
Qed.

Lemma BookEvent_consistent userID eventID user σ :
  consistent σ -> is_Some (userObj σ !! user) ->
  (BookingSystem.nextBookingID (system σ) < maxInt)%Z ->
  ∃ err σ', BookEvent userID eventID user σ = Return err σ'
    ∧ consistent σ'
    ∧ userObj σ' = userObj σ ∧ eventObj σ' = eventObj σ
    ∧ BookingSystem.events (system σ') = BookingSystem.events (system σ)
    ∧ BookingSystem.nextEventID (system σ')
      = BookingSystem.nextEventID (system σ)
    ∧ (BookingSystem.nextBookingID (system σ')
       ≤ BookingSystem.nextBookingID (system σ) + 1)%Z.
Proof.
  intros Hc [u Hu] Hlt. unfold BookEvent. rewrite Hu.
  case_decide; [eexists _, _; split_and!; try done; lia|].
  destruct Hc as [Hea Hba Href Heu Heb Hbu Hbb [Hce Hcb]].
  destruct (findByID _ _ _ _ _) as [| |i p e] eqn:Hf.
  - by destruct (findByID_NilDeref _ _ _ _ _ Hea Hf).
  - eexists _, _. split; [done|]. split; [by constructor|].
    split_and!; try done; lia.
  - apply findByID_FoundAt in Hf as (k & _ & Hk & Hp & Hid & _).
    assert (Hw : wrapInt (BookingSystem.nextBookingID (system σ) + 1)
                 = (BookingSystem.nextBookingID (system σ) + 1)%Z)
      by (apply wrapInt_in_range; unfold maxInt in *; lia).
    set (q := fresh (dom (bookingObj σ))).
    set (booking := Booking.mk (BookingSystem.nextBookingID (system σ)) user
                      p StatusActive).
    assert (Hold : ∀ q', q' ∈ BookingSystem.bookings (system σ) ->
              <[q := booking]> (bookingObj σ) !! q' = bookingObj σ !! q').
    { intros q' Hq'. apply lookup_insert_ne. intros <-.
      unfold allocated in Hba. rewrite Forall_forall in Hba.
      destruct (Hba _ Hq') as [x Hx]. subst q.
      by rewrite fresh_unallocated in Hx. }
    eexists _, _. split; [done|]. split; [|cbn; split_and!; try done; lia].
    constructor; cbn.
    + done.
    + apply Forall_app. split.
      * eapply allocated_agree; [|exact Hba]. intros q' Hq'. by rewrite Hold.
      * constructor; [|constructor]. rewrite lookup_insert_eq. eauto.
    + intros q' b Hq'. destruct (decide (q = q')) as [<-|Hne].
      * rewrite lookup_insert_eq in Hq'. injection Hq' as <-. cbn. eauto.
      * rewrite lookup_insert_ne in Hq' by done. by apply (Href q').
    + done.
    + done.
    + apply (uniqueIDs_snoc _ _ _ _ booking
               (BookingSystem.nextBookingID (system σ))).
      * eapply uniqueIDs_agree; [|exact Hbu]. intros q' Hq'. by rewrite Hold.
      * eapply idsBelow_agree; [| |exact Hbb]; [|lia].
        intros q' Hq'. by rewrite Hold.
      * apply lookup_insert_eq.
      * cbn. lia.
    + rewrite Hw.
      apply (idsBelow_snoc _ _ _ _ booking
               (BookingSystem.nextBookingID (system σ))).
      * eapply idsBelow_agree; [| |exact Hbb]; [|lia].
        intros q' Hq'. by rewrite Hold.
      * apply lookup_insert_eq.
      * cbn. lia.
      * lia.
    + rewrite Hw. unfold maxInt in *. lia.
Qed.

Lemma CancelBooking_consistent bookingID user σ :
  consistent σ -> is_Some (userObj σ !! user) ->
  ∃ err σ', CancelBooking bookingID user σ = Return err σ'
    ∧ consistent σ'
    ∧ userObj σ' = userObj σ ∧ eventObj σ' = eventObj σ
    ∧ system σ' = system σ.
Proof.
  intros Hc [u Hu]. unfold CancelBooking.
  destruct Hc as [Hea Hba Href Heu Heb Hbu Hbb Hcnt].
  destruct (findByID _ _ _ _ _) as [| |i q b] eqn:Hf.
  - by destruct (findByID_NilDeref _ _ _ _ _ Hba Hf).
  - eexists _, _. split; [done|]. by split; [constructor|].
  - apply findByID_FoundAt in Hf as (k & _ & Hk & Hq & Hid & _).
    destruct (Href q b Hq) as [[owner Ho] He]. rewrite Ho, Hu.
    case_decide; [eexists _, _; split; [done|]; by split; [constructor|]|].
    assert (Hids : ∀ q', Booking.ID <$> (<[q := Booking.mk (Booking.ID b)
                       (Booking.User b) (Booking.Event b) StatusCancelled]>
                       (bookingObj σ)) !! q'
                   = Booking.ID <$> bookingObj σ !! q').
    { intros q'. destruct (decide (q = q')) as [<-|Hne].
      - by rewrite lookup_insert_eq, Hq.
      - by rewrite lookup_insert_ne. }
    eexists _, _. split; [done|]. split; [|done]. constructor; cbn.
    + done.
    + eapply allocated_agree; [|exact Hba].
      intros q' _ Hq'. apply lookup_insert_is_Some'. by right.
    + intros q' b' Hq'. destruct (decide (q = q')) as [<-|Hne].
      * rewrite lookup_insert_eq in Hq'. injection Hq' as <-. cbn. eauto.
      * rewrite lookup_insert_ne in Hq' by done. by apply (Href q').
    + done.
    + done.
    + eapply uniqueIDs_agree; [|exact Hbu]. intros q' _. apply Hids.
    + eapply idsBelow_agree; [| |exact Hbb]; [|lia]. intros q' _. apply Hids.
    + done.
Qed.

Lemma AddEvent_consistent_any title date venue admin σ :
  consistent σ -> is_Some (userObj σ !! admin) ->
  (BookingSystem.nextEventID (system σ) < maxInt)%Z ->
  ∃ err σ', AddEvent title date venue admin σ = Return err σ'
    ∧ consistent σ'
    ∧ userObj σ' = userObj σ
    ∧ (BookingSystem.nextEventID (system σ')
       ≤ BookingSystem.nextEventID (system σ) + 1)%Z
    ∧ BookingSystem.nextBookingID (system σ')
      = BookingSystem.nextBookingID (system σ).
Proof.
  intros Hc [a Ha] Hlt.
  destruct (decide (User.Role a = RoleAdmin)) as [Hrole|Hrole].
  - destruct (AddEvent_consistent title date venue admin a σ Hc Ha Hrole Hlt)
      as (σ' & -> & Hc' & Hu & He & Hb).
    eexists _, _. split_and!; try done. lia.
  - unfold AddEvent. rewrite Ha. case_decide; [|done].
    eexists _, _. split_and!; try done. lia.
Qed.

(** ** The listings *)

Lemma listEventLines_allocated l σ :
  allocated (eventObj σ) l ->
  listEventLines formatDate l σ
  = Return tt
      (mkStore (userObj σ) (eventObj σ) (bookingObj σ) (system σ)
         (stdout σ ++ omap (eventLineAt formatDate σ) l)).
Proof.
  revert σ. induction l as [|p l IH]; intros σ Hall.
  - cbn. rewrite app_nil_r. by destruct σ.
  - apply Forall_cons in Hall as [[e He] Hall].
    cbn [listEventLines omap list_omap]. unfold eventLineAt at 1.
    rewrite He. cbn [fmap option_fmap option_map].
    rewrite (IH (printed σ (eventLine formatDate e))) by done.
    cbn. by rewrite <- app_assoc.
Qed.

Lemma listBookingLines_consistent l σ :
  allocated (bookingObj σ) l ->
  (∀ q b, bookingObj σ !! q = Some b ->
     is_Some (userObj σ !! Booking.User b)
     ∧ is_Some (eventObj σ !! Booking.Event b)) ->
  listBookingLines l σ
  = Return tt
      (mkStore (userObj σ) (eventObj σ) (bookingObj σ) (system σ)
         (stdout σ ++ omap (bookingLineAt σ) l)).
Proof.
  revert σ. induction l as [|q l IH]; intros σ Hall Href.
  - cbn. rewrite app_nil_r. by destruct σ.
  - apply Forall_cons in Hall as [[b Hb] Hall].
    destruct (Href q b Hb) as [[u Hu] [e He]].
    cbn [listBookingLines omap list_omap]. unfold bookingLineAt at 1.
    rewrite Hb. cbn. rewrite Hu. cbn. rewrite He. cbn.
    rewrite (IH (printed σ (bookingLine b u e))) by done.
    cbn. by rewrite <- app_assoc.
Qed.

Lemma ListEvents_allocated σ :
  allocated (eventObj σ) (BookingSystem.events (system σ)) ->
  ListEvents formatDate σ
  = Return tt
      (mkStore (userObj σ) (eventObj σ) (bookingObj σ) (system σ)
         (stdout σ
          ++ (if decide (BookingSystem.events (system σ) = [])
              then ["No events available" +:+ newline]
              else (newline +:+ "Available events:" +:+ newline)
                   :: omap (eventLineAt formatDate σ)
                        (BookingSystem.events (system σ))))).
Proof.
  intros Hall. unfold ListEvents.
  destruct (BookingSystem.events (system σ)) as [|p l] eqn:Hl.
  - done.
  - cbn [length]. case_decide; [done|]. case_decide; [done|].
    rewrite listEventLines_allocated by done. cbn. by rewrite <- app_assoc.
Qed.

Lemma ListAllBookings_consistent admin a σ :
  consistent σ -> userObj σ !! admin = Some a ->
  ListAllBookings admin σ
  = Return tt
      (mkStore (userObj σ) (eventObj σ) (bookingObj σ) (system σ)
         (stdout σ
          ++ (if decide (User.Role a ≠ RoleAdmin)
              then ["Access denied" +:+ newline]
              else (newline +:+ "All bookings:" +:+ newline)
                   :: omap (bookingLineAt σ)
                        (BookingSystem.bookings (system σ))))).
Proof.
  intros Hc Ha. unfold ListAllBookings. rewrite Ha. case_decide; [done|].
  rewrite listBookingLines_consistent;
    [| apply Hc | intros q b Hq; by apply (booking_refs σ Hc q b)].
  cbn. by rewrite <- app_assoc.
Qed.

Lemma consistent_stdout σ out :
  consistent σ ->
  consistent
    (mkStore (userObj σ) (eventObj σ) (bookingObj σ) (system σ) out).
Proof. intros []. by constructor. Qed.

(** ** Sequences of calls *)

Lemma perform_consistent c σ :
  consistent σ ->
  (∀ p, callUser c = Some p -> is_Some (userObj σ !! p)) ->
  (BookingSystem.nextEventID (system σ) < maxInt)%Z ->
  (BookingSystem.nextBookingID (system σ) < maxInt)%Z ->
  ∃ σ', perform formatDate c σ = Return tt σ'
    ∧ consistent σ'
    ∧ userObj σ' = userObj σ
    ∧ (BookingSystem.nextEventID (system σ')
       ≤ BookingSystem.nextEventID (system σ) + 1)%Z
    ∧ (BookingSystem.nextBookingID (system σ')
       ≤ BookingSystem.nextBookingID (system σ) + 1)%Z.
Proof.
  intros Hc Hu He Hb. destruct c; cbn [perform callUser] in *.
  - destruct (AddEvent_consistent_any title date venue admin σ Hc
                (Hu _ eq_refl) He) as (err & σ' & -> & ? & ? & ? & ?).
    eexists. split_and!; try done. lia.
  - destruct (UpdateEvent_consistent eventID title date venue admin σ Hc
                (Hu _ eq_refl)) as (err & σ' & -> & ? & ? & Hs & ?).
    eexists. split_and!; try done; rewrite Hs; lia.
  - destruct (DeleteEvent_consistent eventID admin σ Hc (Hu _ eq_refl))
      as (err & σ' & -> & ? & ? & ? & ? & ? & H1 & H2).
    eexists. split_and!; try done; lia.
  - rewrite ListEvents_allocated by apply Hc.
    eexists. split_and!; try done; [by apply consistent_stdout | cbn; lia..].
  - destruct (BookEvent_consistent userID eventID user σ Hc (Hu _ eq_refl) Hb)
      as (err & σ' & -> & ? & ? & ? & ? & H1 & H2).
    eexists. split_and!; try done; lia.
  - destruct (CancelBooking_consistent bookingID user σ Hc (Hu _ eq_refl))
      as (err & σ' & -> & ? & ? & ? & Hs).
    eexists. split_and!; try done; rewrite Hs; lia.
  - destruct (Hu _ eq_refl) as [a Ha].
    rewrite (ListAllBookings_consistent admin a) by done.
    eexists. split_and!; try done; [by apply consistent_stdout | cbn; lia..].
Qed.

Lemma performAll_consistent (calls : list (Call Time)) σ :
  consistent σ ->
  Forall (λ c, ∀ p, callUser c = Some p -> is_Some (userObj σ !! p)) calls ->
  (BookingSystem.nextEventID (system σ) + Z.of_nat (length calls)
   ≤ maxInt)%Z ->
  (BookingSystem.nextBookingID (system σ) + Z.of_nat (length calls)
   ≤ maxInt)%Z ->
  ∃ σ', performAll formatDate calls σ = Return tt σ' ∧ consistent σ'.
Proof.
  revert σ. induction calls as [|c calls IH]; intros σ Hc Hu He Hb.
  - by exists σ.
  - apply Forall_cons in Hu as [Hu1 Hu]. cbn [length] in He, Hb.
    destruct (perform_consistent c σ Hc Hu1) as (σ1 & H1 & Hc1 & Hu' & ? & ?);
      [lia.. |].
    cbn [performAll]. rewrite H1. apply IH; [done | | lia..].
    eapply Forall_impl; [exact Hu|]. intros c' Hc' p Hp. rewrite Hu'. eauto.
Qed.

Lemma empty_registry_consistent (us : gmap ptr User.t) :
  consistent (mkStore (Time := Time) us ∅ ∅ NewBookingSystem []).
Proof.
  constructor; cbn.
  - constructor.
  - constructor.
  - intros q b Hq. by apply lookup_empty_Some in Hq.
  - intros i j p q x y Hi. by rewrite lookup_nil in Hi.
  - intros p x Hp. by apply elem_of_nil in Hp.
  - intros i j p q x y Hi. by rewrite lookup_nil in Hi.
  - intros p x Hp. by apply elem_of_nil in Hp.
  - unfold maxInt. lia.
Qed.

(** X11. The registry starts consistent and stays so.  In the empty registry
    of [NewBookingSystem], and after any calls made one after the other from
    a consistent store, listed pointers hold objects, every booking points to
    an existing user and event, the IDs of the listed events are distinct, so
    are those of the bookings, and all are below the next ID to be given; and
    no call panics.  This needs each call to be given a pointer to an
    existing user, and the ID counters not to reach the largest [int]. *)
Theorem registry_stays_consistent (us : gmap ptr User.t)
    (calls : list (Call Time)) σ :
  consistent (mkStore (Time := Time) us ∅ ∅ NewBookingSystem [])
  ∧ (consistent σ ->
     Forall (λ c, ∀ p, callUser c = Some p -> is_Some (userObj σ !! p))
       calls ->
     (BookingSystem.nextEventID (system σ) + Z.of_nat (length calls)
      ≤ maxInt)%Z ->
     (BookingSystem.nextBookingID (system σ) + Z.of_nat (length calls)
      ≤ maxInt)%Z ->
     ∃ σ', performAll formatDate calls σ = Return tt σ' ∧ consistent σ').
Proof.
  split; [apply empty_registry_consistent|]. apply performAll_consistent.
Qed.

(** ** Who may call what *)

(** X12. The three methods that change events refuse every caller who is not
    an admin, and [BookEvent] refuses every caller who is not a plain user,
    an admin included; a refused call returns its error and changes and
    prints nothing. *)
Theorem role_gates (title venue : string) (date : Time) (eventID userID : Z)
    (who : ptr) (u : User.t) σ :
  userObj σ !! who = Some u ->
  (User.Role u ≠ RoleAdmin ->
     AddEvent title date venue who σ
     = Return (Some "only admin can add events") σ
     ∧ UpdateEvent eventID title date venue who σ
       = Return (Some "only admin can edit events") σ
     ∧ DeleteEvent eventID who σ
       = Return (Some "only admin can delete events") σ)
  ∧ (User.Role u ≠ RoleUser ->
     BookEvent userID eventID who σ
     = Return (Some "only registered users can book") σ).
Proof.
  intros Hu. unfold AddEvent, UpdateEvent, DeleteEvent, BookEvent.
  rewrite Hu. split; intros Hrole; by repeat case_decide.
Qed.

(** ** Adding, finding and deleting events *)

(** X13. After an admin has added an event, the event is found under the ID
    the call has given it, the old value of the counter, with the title,
    date and venue of the call; and every event that was found before is
    found as before, at the same place. *)
Theorem added_event_is_found (title venue : string) (date : Time)
    (admin : ptr) (a : User.t) σ :
  consistent σ ->
  userObj σ !! admin = Some a -> User.Role a = RoleAdmin ->
  (BookingSystem.nextEventID (system σ) < maxInt)%Z ->
  ∃ σ' p,
    AddEvent title date venue admin σ = Return None σ'
    ∧ findByID Event.ID (eventObj σ') (BookingSystem.events (system σ')) 0
        (BookingSystem.nextEventID (system σ))
      = FoundAt (length (BookingSystem.events (system σ))) p
          (Event.mk (BookingSystem.nextEventID (system σ)) title date venue)
    ∧ ∀ id k q x,
        findByID Event.ID (eventObj σ) (BookingSystem.events (system σ)) 0 id
        = FoundAt k q x ->
        findByID Event.ID (eventObj σ') (BookingSystem.events (system σ')) 0
          id
        = FoundAt k q x.
Proof.
  intros Hc Ha Hrole Hlt.
  destruct (AddEvent_consistent title date venue admin a σ Hc Ha Hrole Hlt)
    as (σ' & Hadd & Hc' & _).
  pose proof Hadd as Hadd'.
  rewrite (AddEvent_by_admin _ _ _ _ a) in Hadd' by done.
  injection Hadd' as Hσ'. exists σ', (fresh (dom (eventObj σ))).
  split; [done|]. subst σ'. cbn [eventObj system BookingSystem.events] in *.
  split.
  - apply findByID_listed; [apply Hc' | apply Hc' | | | done].
    + apply list_lookup_middle. done.
    + apply lookup_insert_eq.
  - intros id k q x Hf. apply findByID_app_found.
    rewrite <- Hf. apply findByID_agree. intros p Hp.
    apply lookup_insert_ne. intros <-.
    pose proof (events_allocated σ Hc) as Hall.
    unfold allocated in Hall. rewrite Forall_forall in Hall.
    destruct (Hall _ Hp) as [y Hy]. by rewrite fresh_unallocated in Hy.
Qed.

Lemma DeleteEvent_success eventID admin σ σ' :
  DeleteEvent eventID admin σ = Return None σ' ->
  ∃ i p e,
    findByID Event.ID (eventObj σ) (BookingSystem.events (system σ)) 0
      eventID = FoundAt i p e
    ∧ σ' = mkStore (userObj σ) (eventObj σ) (bookingObj σ)
             (BookingSystem.mk
                (delete i (BookingSystem.events (system σ)))
                (BookingSystem.users (system σ))
                (BookingSystem.bookings (system σ))
                (BookingSystem.nextEventID (system σ))
                (BookingSystem.nextBookingID (system σ)))
             (stdout σ
              ++ ["Event ID " +:+ pretty eventID +:+ " deleted" +:+ newline]).
Proof.
  unfold DeleteEvent. destruct (userObj σ !! admin); [|done].
  case_decide; [done|].
  destruct (findByID _ _ _ _ _) as [| |i p e]; try done.
  intros Heq. injection Heq as <-. exists i, p, e.
  by rewrite <- delete_take_drop.
Qed.

Lemma DeleteEvent_removes (eventID : Z) (admin : ptr) σ σ' :
  consistent σ ->
  DeleteEvent eventID admin σ = Return None σ' ->
  findByID Event.ID (eventObj σ') (BookingSystem.events (system σ')) 0
    eventID = NotFound.
Proof.
  intros Hc Hdel.
  apply DeleteEvent_success in Hdel as (i & p & e & Hf & ->).
  cbn [eventObj system BookingSystem.events].
  pose proof (events_allocated σ Hc) as Hall.
  pose proof (events_unique σ Hc) as Huniq.
  apply findByID_FoundAt in Hf as (k & Hk0 & Hi & Hp & Hid & _).
  cbn in Hk0. subst k.
  apply findByID_NotFound. apply Forall_lookup. intros j q Hj.
  apply lookup_delete_Some in Hj as (j' & Hj' & Hjj).
  unfold allocated in Hall. rewrite Forall_lookup in Hall.
  destruct (Hall _ _ Hj') as [x Hx]. exists x. split; [done|].
  intros Hxid. assert (j' = i)
    by (apply (Huniq j' i q p x e); congruence).
  subst j'. case_decide; lia.
Qed.

(** X14. After a successful [DeleteEvent] of a consistent registry no listed
    event has the ID any more, so the methods that look the ID up answer
    "event not found"; for every other ID the search finds the same event as
    before, or none as before. *)
Theorem deleted_event_is_gone (eventID : Z) (admin : ptr) σ σ' :
  consistent σ ->
  DeleteEvent eventID admin σ = Return None σ' ->
  findByID Event.ID (eventObj σ') (BookingSystem.events (system σ')) 0
    eventID = NotFound
  ∧ DeleteEvent eventID admin σ' = Return (Some "event not found") σ'
  ∧ ∀ id q x, id ≠ eventID ->
      (∃ k, findByID Event.ID (eventObj σ)
              (BookingSystem.events (system σ)) 0 id = FoundAt k q x)
      ↔ (∃ k, findByID Event.ID (eventObj σ')
                (BookingSystem.events (system σ')) 0 id = FoundAt k q x).
Proof.
  intros Hc Hdel.
  assert (Hadmin : ∃ a, userObj σ !! admin = Some a
                        ∧ User.Role a = RoleAdmin).
  { unfold DeleteEvent in Hdel. destruct (userObj σ !! admin) as [a|]; [|done].
    exists a. split; [done|]. case_decide as Hr; [done|].
    by destruct (decide (User.Role a = RoleAdmin)). }
  destruct Hadmin as (a & Ha & Hrole).
  destruct (DeleteEvent_consistent eventID admin σ Hc (mk_is_Some _ _ Ha))
    as (err & σ'' & Hdel' & Hc' & _).
  rewrite Hdel in Hdel'. injection Hdel' as _ <-.
  pose proof (DeleteEvent_removes eventID admin σ σ' Hc Hdel) as Hgone.
  apply DeleteEvent_success in Hdel as (i & p & e & Hf & ->).
  cbn [eventObj system BookingSystem.events userObj] in *.
  pose proof (events_allocated σ Hc) as Hall.
  pose proof (events_unique σ Hc) as Huniq.
  apply findByID_FoundAt in Hf as (k & Hk0 & Hi & Hp & Hid & _).
  cbn in Hk0. subst k.
  split; [done|]. split.
  { rewrite (DeleteEvent_by_admin _ _ a) by done. cbn. by rewrite Hgone. }
  intros id q x Hne. split.
  - intros [k Hf].
    apply findByID_FoundAt in Hf as (k' & Hk' & Hq & Hx & Hxid & _).
    cbn in Hk'. subst k'.
    assert (k ≠ i) by (intros ->; congruence).
    exists (if decide (k < i)%nat then k else pred k).
    apply findByID_listed; [apply Hc' | apply Hc' | | done | done].
    case_decide.
    + by rewrite list_lookup_delete_lt.
    + rewrite list_lookup_delete_ge by lia.
      by replace (S (pred k)) with k by lia.
  - intros [k Hf].
    apply findByID_FoundAt in Hf as (k' & Hk' & Hq & Hx & Hxid & _).
    apply lookup_delete_Some in Hq as (j & Hj & _).
    exists j. by apply findByID_listed.
Qed.

Lemma perform_keeps_absent eventID c σ σ' :
  consistent σ ->
  (BookingSystem.nextEventID (system σ) < maxInt)%Z ->
  perform formatDate c σ = Return tt σ' ->
  findByID Event.ID (eventObj σ) (BookingSystem.events (system σ)) 0 eventID
  = NotFound ->
  (eventID < BookingSystem.nextEventID (system σ))%Z ->
  findByID Event.ID (eventObj σ') (BookingSystem.events (system σ')) 0
    eventID = NotFound
  ∧ (eventID < BookingSystem.nextEventID (system σ'))%Z.
Proof.
  intros Hc Hlt Hperf Hnf Hbelow.
  pose proof (events_allocated σ Hc) as Hall.
  pose proof (counters_in_range σ Hc) as [Hce _].
  destruct c; cbn [perform] in Hperf.
  - unfold AddEvent in Hperf. destruct (userObj σ !! admin); [|done].
    case_decide; [by injection Hperf as <-|]. injection Hperf as <-.
    cbn [eventObj system BookingSystem.events BookingSystem.nextEventID].
    rewrite wrapInt_in_range by (unfold maxInt in *; lia).
    split; [|lia]. apply findByID_NotFound. apply Forall_app. split.
    + apply findByID_NotFound in Hnf. rewrite Forall_forall in Hnf.
      apply Forall_forall. intros p Hp.
      destruct (Hnf p Hp) as (x & Hx & Hne). exists x. split; [|done].
      rewrite lookup_insert_ne; [done|]. intros <-.
      by rewrite fresh_unallocated in Hx.
    + constructor; [|constructor]. eexists. rewrite lookup_insert_eq.
      split; [done|]. cbn. lia.
  - unfold UpdateEvent in Hperf. destruct (userObj σ !! admin); [|done].
    case_decide; [by injection Hperf as <-|].
    destruct (findByID _ _ _ _ eventID0) as [| |i p e] eqn:Hf; [done | |].
    + by injection Hperf as <-.
    + injection Hperf as <-. cbn [eventObj system]. split; [|done].
      apply findByID_FoundAt in Hf as (k & _ & Hk & Hp & Hid & _).
      apply findByID_NotFound in Hnf. rewrite Forall_forall in Hnf.
      apply findByID_NotFound, Forall_forall. intros q Hq.
      destruct (Hnf q Hq) as (x & Hx & Hne).
      destruct (decide (p = q)) as [<-|Hpq].
      * eexists. rewrite lookup_insert_eq. split; [done|]. cbn. congruence.
      * exists x. by rewrite lookup_insert_ne.
  - unfold DeleteEvent in Hperf. destruct (userObj σ !! admin); [|done].
    case_decide; [by injection Hperf as <-|].
    destruct (findByID _ _ _ _ eventID0) as [| |i p e] eqn:Hf; [done | |].
    + by injection Hperf as <-.
    + injection Hperf as <-.
      cbn [eventObj system BookingSystem.events BookingSystem.nextEventID].
      split; [|done]. rewrite <- delete_take_drop.
      apply findByID_NotFound in Hnf. rewrite Forall_forall in Hnf.
      apply findByID_NotFound, Forall_forall. intros q Hq.
      apply Hnf. by apply elem_of_delete in Hq.
  - rewrite ListEvents_allocated in Hperf by done. by injection Hperf as <-.
  - unfold BookEvent in Hperf. destruct (userObj σ !! user); [|done].
    case_decide; [by injection Hperf as <-|].
    destruct (findByID _ _ _ _ eventID0) as [| |i p e] eqn:Hf; [done | |].
    + by injection Hperf as <-.
    + by injection Hperf as <-.
  - unfold CancelBooking in Hperf.
    destruct (findByID _ _ _ _ bookingID) as [| |i q b] eqn:Hf; [done | |].
    + by injection Hperf as <-.
    + destruct (userObj σ !! Booking.User b); [|done].
      destruct (userObj σ !! user); [|done].
      case_decide; by injection Hperf as <-.
  - destruct (userObj σ !! admin) as [a|] eqn:Ha.
    + rewrite (ListAllBookings_consistent admin a σ Hc Ha) in Hperf.
      by injection Hperf as <-.
    + unfold ListAllBookings in Hperf. by rewrite Ha in Hperf.
Qed.

(** X15. The ID of a deleted event does not come back: after a successful
    [DeleteEvent], whatever calls follow, no listed event has that ID, as
    long as the calls are given existing users and the counters do not reach
    the largest [int]. *)
Theorem deleted_id_is_not_reused (eventID : Z) (admin : ptr)
    (calls : list (Call Time)) σ σ1 :
  consistent σ ->
  DeleteEvent eventID admin σ = Return None σ1 ->
  Forall (λ c, ∀ p, callUser c = Some p -> is_Some (userObj σ !! p)) calls ->
  (BookingSystem.nextEventID (system σ) + Z.of_nat (length calls)
   ≤ maxInt)%Z ->
  (BookingSystem.nextBookingID (system σ) + Z.of_nat (length calls)
   ≤ maxInt)%Z ->
  ∃ σ2, performAll formatDate calls σ1 = Return tt σ2
    ∧ findByID Event.ID (eventObj σ2) (BookingSystem.events (system σ2)) 0
        eventID = NotFound.
Proof.
  intros Hc Hdel Hu He Hb.
  pose proof (DeleteEvent_removes eventID admin σ σ1 Hc Hdel) as Hnf.
  assert (Hc1 : consistent σ1 ∧ userObj σ1 = userObj σ
                ∧ BookingSystem.nextEventID (system σ1)
                  = BookingSystem.nextEventID (system σ)
                ∧ BookingSystem.nextBookingID (system σ1)
                  = BookingSystem.nextBookingID (system σ)).
  { assert (Hadm : is_Some (userObj σ !! admin)).
    { unfold DeleteEvent in Hdel. by destruct (userObj σ !! admin). }
    destruct (DeleteEvent_consistent eventID admin σ Hc Hadm)
      as (err & σ' & Hdel' & ? & ? & _ & _ & _ & ? & ?).
    rewrite Hdel in Hdel'. by injection Hdel' as _ <-. }
  destruct Hc1 as (Hc1 & Hu1 & He1 & Hb1).
  assert (Hbelow : (eventID < BookingSystem.nextEventID (system σ1))%Z).
  { rewrite He1.
    apply DeleteEvent_success in Hdel as (i & p & e & Hf & _).
    apply findByID_FoundAt in Hf as (k & _ & Hk & Hp & <- & _).
    apply (events_below σ Hc p e); [|done].
    by apply list_elem_of_lookup_2 in Hk. }
  rewrite <- Hu1 in Hu. rewrite <- He1 in He. rewrite <- Hb1 in Hb.
  clear Hdel Hc Hu1 He1 Hb1 σ. revert σ1 Hnf Hc1 Hbelow Hu He Hb.
  induction calls as [|c calls IH]; intros σ Hnf Hc Hbelow Hu He Hb.
  - by exists σ.
  - apply Forall_cons in Hu as [Hu1 Hu]. cbn [length] in He, Hb.
    destruct (perform_consistent c σ Hc Hu1) as (σ' & H1 & Hc' & Hu' & ? & ?);
      [lia.. |].
    destruct (perform_keeps_absent eventID c σ σ' Hc) as [Hnf' Hbelow'];
      [lia | done | done | done |].
    cbn [performAll]. rewrite H1. apply IH; [done | done | done | | lia..].
    eapply Forall_impl; [exact Hu|]. intros c' Hc'' p Hp. rewrite Hu'. eauto.
Qed.

(** ** Events and the bookings that point to them *)

(** X16. [DeleteEvent] takes the event off the list and leaves the bookings
    alone: they stay listed with their status, they still point to the
    deleted event, which still exists, and an admin's [ListAllBookings]
    prints for them the very lines it printed before. *)
Theorem DeleteEvent_keeps_bookings (eventID : Z) (admin viewer : ptr)
    (v : User.t) σ σ' :
  consistent σ ->
  DeleteEvent eventID admin σ = Return None σ' ->
  userObj σ !! viewer = Some v -> User.Role v = RoleAdmin ->
  BookingSystem.bookings (system σ') = BookingSystem.bookings (system σ)
  ∧ bookingObj σ' = bookingObj σ
  ∧ eventObj σ' = eventObj σ
  ∧ (∀ q, bookingLineAt σ' q = bookingLineAt σ q)
  ∧ stdout (storeAfter (ListAllBookings viewer σ'))
    = (stdout σ'
       ++ (newline +:+ "All bookings:" +:+ newline)
          :: omap (bookingLineAt σ)
               (BookingSystem.bookings (system σ)))%list.
Proof.
  intros Hc Hdel Hv Hrole.
  assert (Hc' : consistent σ').
  { assert (Hadm : is_Some (userObj σ !! admin)).
    { unfold DeleteEvent in Hdel. by destruct (userObj σ !! admin). }
    destruct (DeleteEvent_consistent eventID admin σ Hc Hadm)
      as (err & σ'' & Hdel' & ? & _).
    rewrite Hdel in Hdel'. by injection Hdel' as _ <-. }
  apply DeleteEvent_success in Hdel as (i & p & e & Hf & ->).
  split_and!; try done.
  rewrite (ListAllBookings_consistent viewer v) by done.
  cbn. case_decide; [done|]. done.
Qed.

(** X17. [UpdateEvent] changes the event in place, so the change is seen
    through every booking made for the event, also those made before the
    update: the line that [ListAllBookings] prints for such a booking carries
    the new title; the lines of the other bookings are as before. *)
Theorem UpdateEvent_seen_through_bookings (eventID : Z) (title venue : string)
    (date : Time) (admin : ptr) σ σ' :
  UpdateEvent eventID title date venue admin σ = Return None σ' ->
  ∃ k p e,
    findByID Event.ID (eventObj σ) (BookingSystem.events (system σ)) 0
      eventID = FoundAt k p e
    ∧ eventObj σ' !! p = Some (Event.mk eventID title date venue)
    ∧ (∀ q b u, bookingObj σ !! q = Some b ->
         userObj σ !! Booking.User b = Some u -> Booking.Event b = p ->
         bookingLineAt σ' q
         = Some (bookingLine b u (Event.mk eventID title date venue)))
    ∧ (∀ q b, bookingObj σ !! q = Some b -> Booking.Event b ≠ p ->
         bookingLineAt σ' q = bookingLineAt σ q).
Proof.
  unfold UpdateEvent. destruct (userObj σ !! admin); [|done].
  case_decide; [done|].
  destruct (findByID _ _ _ _ _) as [| |k p e] eqn:Hf; try done.
  intros Heq. injection Heq as <-. exists k, p, e.
  apply findByID_FoundAt in Hf as (k' & _ & _ & Hp & Hid & _). subst eventID.
  split; [done|]. split; [apply lookup_insert_eq|]. split.
  - intros q b u Hq Hu <-. unfold bookingLineAt. cbn.
    rewrite Hq. cbn. rewrite Hu. cbn. by rewrite lookup_insert_eq.
  - intros q b Hq Hne. unfold bookingLineAt. cbn. rewrite Hq. cbn.
    destruct (userObj σ !! Booking.User b); [|done]. cbn.
    by rewrite lookup_insert_ne.
Qed.

(** X18. [BookEvent] does not look for an earlier booking: the same user
    can book the same event again, and gets a second active booking with the
    next ID.  The [userID] argument plays no part. *)
Theorem same_event_can_be_booked_twice (userID1 userID2 eventID : Z)
    (user : ptr) (u : User.t) (k : nat) (p : ptr) (e : Event.t Time) σ :
  consistent σ ->
  userObj σ !! user = Some u -> User.Role u = RoleUser ->
  findByID Event.ID (eventObj σ) (BookingSystem.events (system σ)) 0 eventID
  = FoundAt k p e ->
  (BookingSystem.nextBookingID (system σ) + 1 < maxInt)%Z ->
  ∃ σ1 σ2 q1 q2,
    BookEvent userID1 eventID user σ = Return None σ1
    ∧ BookEvent userID2 eventID user σ1 = Return None σ2
    ∧ q1 ≠ q2
    ∧ BookingSystem.bookings (system σ2)
      = (BookingSystem.bookings (system σ) ++ [q1; q2])%list
    ∧ bookingObj σ2 !! q1
      = Some (Booking.mk (BookingSystem.nextBookingID (system σ)) user p
                StatusActive)
    ∧ bookingObj σ2 !! q2
      = Some (Booking.mk (BookingSystem.nextBookingID (system σ) + 1) user p
                StatusActive).
Proof.
  intros Hc Hu Hrole Hf Hlt.
  pose proof (counters_in_range σ Hc) as [_ Hcb].
  set (n := BookingSystem.nextBookingID (system σ)) in *.
  set (q1 := fresh (dom (bookingObj σ))).
  set (h1 := <[q1 := Booking.mk n user p StatusActive]> (bookingObj σ)).
  set (q2 := fresh (dom h1)).
  assert (Hq : q1 ≠ q2).
  { intros Heq. assert (Hin : h1 !! q2 = None) by apply fresh_unallocated.
    rewrite <- Heq in Hin. unfold h1 in Hin.
    by rewrite lookup_insert_eq in Hin. }
  eexists _, _, q1, q2. split.
  { rewrite (BookEvent_by_user _ _ _ u) by done. rewrite Hf. reflexivity. }
  split.
  { rewrite (BookEvent_by_user _ _ _ u) by done. cbn. rewrite Hf.
    reflexivity. }
  split; [done|]. cbn. split; [by rewrite <- app_assoc|].
  rewrite wrapInt_in_range by (unfold maxInt in *; lia). split.
  - rewrite lookup_insert_ne by done. apply lookup_insert_eq.
  - apply lookup_insert_eq.
Qed.

(** ** Cancelling a booking *)

(** X19. A booking that is found is cancelled for its owner, recognised by
    the user ID alone whatever the role, and for any admin; for every other
    caller the call fails and changes nothing.  Only the status of that
    booking changes, and cancelling a cancelled booking succeeds again and
    leaves it cancelled. *)
Theorem who_may_cancel (bookingID : Z) (user : ptr) (k : nat) (q : ptr)
    (b : Booking.t) (owner u : User.t) σ :
  findByID Booking.ID (bookingObj σ) (BookingSystem.bookings (system σ)) 0
    bookingID = FoundAt k q b ->
  userObj σ !! Booking.User b = Some owner ->
  userObj σ !! user = Some u ->
  (User.ID owner ≠ User.ID u -> User.Role u ≠ RoleAdmin ->
     CancelBooking bookingID user σ
     = Return (Some "you can only cancel your own bookings") σ)
  ∧ (User.ID owner = User.ID u ∨ User.Role u = RoleAdmin ->
     ∃ σ', CancelBooking bookingID user σ = Return None σ'
       ∧ bookingObj σ'
         = <[q := Booking.mk (Booking.ID b) (Booking.User b)
                    (Booking.Event b) StatusCancelled]> (bookingObj σ)
       ∧ userObj σ' = userObj σ ∧ eventObj σ' = eventObj σ
       ∧ system σ' = system σ
       ∧ ∃ σ'', CancelBooking bookingID user σ' = Return None σ''
           ∧ bookingObj σ'' = bookingObj σ').
Proof.
  intros Hf Ho Hu. split.
  - intros H1 H2. unfold CancelBooking. rewrite Hf, Ho, Hu.
    case_decide as Hd; [done|]. destruct Hd. by split.
  - intros Hmay.
    assert (Hnot : ¬ (User.ID owner ≠ User.ID u ∧ User.Role u ≠ RoleAdmin))
      by (intros [??]; destruct Hmay; done).
    eexists. split.
    { unfold CancelBooking. rewrite Hf, Ho, Hu. case_decide; [done|].
      reflexivity. }
    cbn. split_and!; try done.
    set (b' := Booking.mk (Booking.ID b) (Booking.User b) (Booking.Event b)
                 StatusCancelled).
    assert (Hf' : findByID Booking.ID (<[q := b']> (bookingObj σ))
                    (BookingSystem.bookings (system σ)) 0 bookingID
                  = FoundAt k q b').
    { pose proof Hf as Hinv.
      apply findByID_FoundAt in Hinv as (k' & _ & _ & Hq & _).
      clear -Hf Hq. revert Hf. generalize 0%nat.
      induction (BookingSystem.bookings (system σ)) as [|q0 l IH];
        intros i Hf; [discriminate Hf|].
      cbn in *. destruct (decide (q = q0)) as [<-|Hne].
      - rewrite lookup_insert_eq. rewrite Hq in Hf. cbn.
        case_decide; [by injection Hf as <-|].
        apply IH. done.
      - rewrite lookup_insert_ne by done.
        destruct (bookingObj σ !! q0); [|done].
        case_decide; [by injection Hf as <- <- <-|]. by apply IH. }
    eexists. split.
    { unfold CancelBooking. cbn. rewrite Hf'. cbn. rewrite Ho, Hu.
      case_decide; [done|]. reflexivity. }
    cbn. apply insert_insert_eq.
Qed.

Lemma storeAfter_listEventLines l σ :
  bookingObj (storeAfter (listEventLines formatDate l σ)) = bookingObj σ.
Proof.
  revert σ. induction l as [|p l IH]; intros σ; [done|].
  cbn. destruct (eventObj σ !! p); [|done]. by rewrite IH.
Qed.

Lemma storeAfter_listBookingLines l σ :
  bookingObj (storeAfter (listBookingLines l σ)) = bookingObj σ.
Proof.
  revert σ. induction l as [|q l IH]; intros σ; [done|].
  cbn. destruct (bookingObj σ !! q) as [b|]; [|done].
  destruct (userObj σ !! Booking.User b); [|done].
  destruct (eventObj σ !! Booking.Event b); [|done]. by rewrite IH.
Qed.

(** What one call, of any method, can do to a booking that exists. *)
Lemma perform_booking_object c σ q b :
  bookingObj σ !! q = Some b ->
  ∃ b', bookingObj (storeAfter (perform formatDate c σ)) !! q = Some b'
    ∧ Booking.ID b' = Booking.ID b
    ∧ Booking.User b' = Booking.User b
    ∧ Booking.Event b' = Booking.Event b
    ∧ (Booking.Status b' = Booking.Status b
       ∨ Booking.Status b' = StatusCancelled).
Proof.
  intros Hq.
  assert (Hsame : ∀ σ', bookingObj σ' = bookingObj σ ->
            ∃ b', bookingObj σ' !! q = Some b'
              ∧ Booking.ID b' = Booking.ID b
              ∧ Booking.User b' = Booking.User b
              ∧ Booking.Event b' = Booking.Event b
              ∧ (Booking.Status b' = Booking.Status b
                 ∨ Booking.Status b' = StatusCancelled)).
  { intros σ' ->. exists b. split_and!; try done. by left. }
  destruct c; cbn [perform].
  - unfold AddEvent. destruct (userObj σ !! admin); [|by apply Hsame].
    case_decide; by apply Hsame.
  - unfold UpdateEvent. destruct (userObj σ !! admin); [|by apply Hsame].
    case_decide; [by apply Hsame|].
    destruct (findByID _ _ _ _ _); by apply Hsame.
  - unfold DeleteEvent. destruct (userObj σ !! admin); [|by apply Hsame].
    case_decide; [by apply Hsame|].
    destruct (findByID _ _ _ _ _); by apply Hsame.
  - apply Hsame. unfold ListEvents. case_decide; [done|].
    by rewrite storeAfter_listEventLines.
  - unfold BookEvent. destruct (userObj σ !! user); [|by apply Hsame].
    case_decide; [by apply Hsame|].
    destruct (findByID _ _ _ _ _); [by apply Hsame | by apply Hsame |].
    cbn. exists b. rewrite lookup_insert_ne.
    + split_and!; try done. by left.
    + intros Heq. rewrite <- Heq in Hq. by rewrite fresh_unallocated in Hq.
  - unfold CancelBooking.
    destruct (findByID _ _ _ _ _) as [| |i q0 b0] eqn:Hf;
      [by apply Hsame | by apply Hsame |].
    destruct (userObj σ !! Booking.User b0); [|by apply Hsame].
    destruct (userObj σ !! user); [|by apply Hsame].
    case_decide; [by apply Hsame|]. cbn.
    apply findByID_FoundAt in Hf as (k & _ & _ & Hq0 & _).
    destruct (decide (q0 = q)) as [->|Hne].
    + rewrite lookup_insert_eq. eexists. split; [done|].
      assert (b0 = b) by congruence. subst b0. cbn.
      split_and!; try done. by right.
    + rewrite lookup_insert_ne by done. exists b.
      split_and!; try done. by left.
  - apply Hsame. unfold ListAllBookings.
    destruct (userObj σ !! admin); [|done]. case_decide; [done|].
    by rewrite storeAfter_listBookingLines.
Qed.

(** X20. A booking, once made, keeps its ID, its user and its event, and its
    status can only go from active to cancelled: whatever calls follow, in
    whatever store, also if the program panics on the way, a cancelled
    booking is still there and still cancelled. *)
Theorem cancelled_stays_cancelled (calls : list (Call Time)) (q : ptr)
    (b : Booking.t) σ :
  bookingObj σ !! q = Some b ->
  ∃ b', bookingObj (storeAfter (performAll formatDate calls σ)) !! q
        = Some b'
    ∧ Booking.ID b' = Booking.ID b
    ∧ Booking.User b' = Booking.User b
    ∧ Booking.Event b' = Booking.Event b
    ∧ (Booking.Status b' = Booking.Status b
       ∨ Booking.Status b' = StatusCancelled)
    ∧ (Booking.Status b = StatusCancelled ->
       Booking.Status b' = StatusCancelled).
Proof.
  revert σ b. induction calls as [|c calls IH]; intros σ b Hq.
  - exists b. cbn. split_and!; try done. by left.
  - destruct (perform_booking_object c σ q b Hq)
      as (b1 & Hq1 & Hid1 & Hu1 & He1 & Hs1).
    cbn [performAll].
    destruct (perform formatDate c σ) as [σ1 | [] σ1]; cbn in Hq1.
    + cbn. exists b1. split_and!; try done.
      intros Hcan. destruct Hs1; congruence.
    + destruct (IH σ1 b1 Hq1) as (b' & Hq' & Hid & Hu & He & Hs & Hcan).
      exists b'. split_and!; try congruence.
      * destruct Hs as [Hs | Hs]; [|by right].
        destruct Hs1 as [Hs1 | Hs1]; [left; congruence|].
        right. by rewrite Hs.
      * intros Hb. apply Hcan. destruct Hs1; congruence.
Qed.

(** ** The listings *)

(** X21. [ListEvents] changes nothing but the output.  With no event listed
    it prints "No events available"; otherwise it prints the heading and one
    line for each listed event, in the order of the list. *)
Theorem ListEvents_prints σ :
  allocated (eventObj σ) (BookingSystem.events (system σ)) ->
  ∃ lines,
    ListEvents formatDate σ
    = Return tt
        (mkStore (userObj σ) (eventObj σ) (bookingObj σ) (system σ)
           (stdout σ ++ lines))
    ∧ (BookingSystem.events (system σ) = [] ->
       lines = ["No events available" +:+ newline])
    ∧ (BookingSystem.events (system σ) ≠ [] ->
       lines = (newline +:+ "Available events:" +:+ newline)
               :: omap (eventLineAt formatDate σ)
                    (BookingSystem.events (system σ))
       ∧ length lines = S (length (BookingSystem.events (system σ)))).
Proof.
  intros Hall. eexists. split; [by apply ListEvents_allocated|].
  split; intros Hl; case_decide; try done. split; [done|].
  cbn [length]. f_equal. clear -Hall.
  induction Hall as [|p l [e He] _ IH]; [done|].
  cbn. unfold eventLineAt at 1. rewrite He. cbn. by rewrite IH.
Qed.

(** X22. [ListAllBookings] changes nothing but the output.  To a caller who
    is not an admin it prints "Access denied" and no booking; to an admin it
    prints the heading and one line for each listed booking, in the order of
    the list, cancelled bookings included. *)
Theorem ListAllBookings_prints (viewer : ptr) (v : User.t) σ :
  consistent σ -> userObj σ !! viewer = Some v ->
  ∃ lines,
    ListAllBookings viewer σ
    = Return tt
        (mkStore (userObj σ) (eventObj σ) (bookingObj σ) (system σ)
           (stdout σ ++ lines))
    ∧ (User.Role v ≠ RoleAdmin -> lines = ["Access denied" +:+ newline])
    ∧ (User.Role v = RoleAdmin ->
       lines = (newline +:+ "All bookings:" +:+ newline)
               :: omap (bookingLineAt σ)
                    (BookingSystem.bookings (system σ))
       ∧ length lines = S (length (BookingSystem.bookings (system σ)))).
Proof.
  intros Hc Hv. eexists. split; [by apply ListAllBookings_consistent|].
  split; intros Hr; case_decide; try done. split; [done|].
  cbn [length]. f_equal.
  pose proof (bookings_allocated σ Hc) as Hall.
  pose proof (booking_refs σ Hc) as Href. clear -Hall Href.
  induction Hall as [|q l [b Hb] _ IH]; [done|].
  destruct (Href q b Hb) as [[u Hu] [e He]].
  cbn. unfold bookingLineAt at 1. rewrite Hb. cbn. rewrite Hu. cbn.
  rewrite He. cbn. by rewrite IH.
Qed.

End RegistryFacts.

(** ** The registry of [main] *)

Lemma demoOne_consistent : consistent demoOne.
Proof.
  destruct (AddEvent_consistent "Jazz Concert" 24%Z "Jazz Club" 3%positive
              (User.mk 3 "Olga (admin)" RoleAdmin) demoStart
              (empty_registry_consistent demoUsers))
    as (σ' & Hadd & Hc & _); [reflexivity | reflexivity | by vm_compute |].
  assert (Hx : AddEvent "Jazz Concert" 24%Z "Jazz Club" 3%positive demoStart
               = Return None demoOne) by (vm_compute; reflexivity).
  rewrite Hx in Hadd. by injection Hadd as <-.
Qed.

Lemma demoUsers_allocated (calls : list (Call Z)) (σ : @Store Z) :
  userObj σ = demoUsers ->
  Forall (λ c, callUser c ∈ [None; Some 1%positive; Some 2%positive;
                              Some 3%positive]) calls ->
  Forall (λ c, ∀ p, callUser c = Some p -> is_Some (userObj σ !! p)) calls.
Proof.
  intros -> H. eapply Forall_impl; [exact H|]. intros c Hc p Hp.
  cbn beta in Hc. rewrite Hp in Hc. rewrite !elem_of_cons, elem_of_nil in Hc.
  destruct Hc as [Hc | [Hc | [Hc | [Hc | []]]]]; [done | ..];
    injection Hc as ->; vm_compute; eauto.
Qed.

Lemma demoBooked_consistent : consistent demoBooked.
Proof.
  destruct (performAll_consistent pretty (take 4 demoCalls) demoStart
              (empty_registry_consistent demoUsers))
    as (σ' & Hrun & Hc).
  - apply demoUsers_allocated; [done|].
    repeat constructor; vm_compute; rewrite !elem_of_cons; tauto.
  - by vm_compute.
  - by vm_compute.
  - unfold demoBooked. by rewrite Hrun.
Qed.

Lemma registry_stays_consistent_witness :
  ∃ σ', performAll pretty demoCalls demoStart = Return tt σ'
        ∧ consistent σ'.
Proof.
  apply (registry_stays_consistent pretty demoUsers demoCalls demoStart).
  - apply empty_registry_consistent.
  - apply demoUsers_allocated; [done|].
    repeat constructor; vm_compute; rewrite !elem_of_cons; tauto.
  - by vm_compute.
  - by vm_compute.
Defined.

Lemma role_gates_witness :
  BookEvent 3 1 3%positive demoOne
  = Return (Some "only registered users can book") demoOne.
Proof.
  apply (role_gates "" "" 0%Z 1 3 3%positive
           (User.mk 3 "Olga (admin)" RoleAdmin) demoOne).
  - reflexivity.
  - discriminate.
Defined.

Lemma added_event_is_found_witness :
  ∃ σ' p,
    AddEvent "Jazz Concert" 24%Z "Jazz Club" 3%positive demoStart
    = Return None σ'
    ∧ findByID Event.ID (eventObj σ') (BookingSystem.events (system σ')) 0 1
      = FoundAt 0 p (Event.mk 1 "Jazz Concert" 24%Z "Jazz Club").
Proof.
  destruct (added_event_is_found "Jazz Concert" "Jazz Club" 24%Z 3%positive
              (User.mk 3 "Olga (admin)" RoleAdmin) demoStart)
    as (σ' & p & Hadd & Hfound & _).
  - apply empty_registry_consistent.
  - reflexivity.
  - reflexivity.
  - by vm_compute.
  - by exists σ', p.
Defined.

Lemma deleted_event_is_gone_witness :
  findByID Event.ID
    (eventObj (storeAfter (DeleteEvent 1 3%positive demoOne)))
    (BookingSystem.events
       (system (storeAfter (DeleteEvent 1 3%positive demoOne)))) 0 1
  = NotFound.
Proof.
  apply (deleted_event_is_gone 1 3%positive demoOne
           (storeAfter (DeleteEvent 1 3%positive demoOne))).
  - apply demoOne_consistent.
  - vm_compute. reflexivity.
Defined.

Lemma deleted_id_is_not_reused_witness :
  ∃ σ2,
    performAll pretty
      [CallAddEvent "Poetry Night" 72%Z "Library" 3%positive; CallListEvents]
      (storeAfter (DeleteEvent 1 3%positive demoOne))
    = Return tt σ2
    ∧ findByID Event.ID (eventObj σ2) (BookingSystem.events (system σ2)) 0 1
      = NotFound.
Proof.
  apply (deleted_id_is_not_reused pretty 1 3%positive
           [CallAddEvent "Poetry Night" 72%Z "Library" 3%positive;
            CallListEvents] demoOne).
  - apply demoOne_consistent.
  - vm_compute. reflexivity.
  - apply demoUsers_allocated; [done|].
    repeat constructor; vm_compute; rewrite !elem_of_cons; tauto.
  - by vm_compute.
  - by vm_compute.
Defined.

Lemma DeleteEvent_keeps_bookings_witness :
  bookingObj (storeAfter (DeleteEvent 1 3%positive demoBooked))
  = bookingObj demoBooked.
Proof.
  apply (DeleteEvent_keeps_bookings 1 3%positive 3%positive
           (User.mk 3 "Olga (admin)" RoleAdmin) demoBooked
           (storeAfter (DeleteEvent 1 3%positive demoBooked))).
  - apply demoBooked_consistent.
  - vm_compute. reflexivity.
  - reflexivity.
  - reflexivity.
Defined.

Lemma UpdateEvent_seen_through_bookings_witness :
  bookingLineAt
    (storeAfter (UpdateEvent 1 "Blues Concert" 24%Z "Jazz Club" 3%positive
                   demoBooked)) 1%positive
  = Some ("ID: 1 | User: Ivan (user) | Event: Blues Concert | Status: active"
          +:+ newline).
Proof.
  destruct (UpdateEvent_seen_through_bookings 1 "Blues Concert" "Jazz Club"
              24%Z 3%positive demoBooked
              (storeAfter (UpdateEvent 1 "Blues Concert" 24%Z "Jazz Club"
                             3%positive demoBooked)))
    as (k & p & e & Hf & _ & Hline & _).
  - vm_compute. reflexivity.
  - vm_compute in Hf. injection Hf as _ <- _.
    apply (Hline 1%positive (Booking.mk 1 2%positive 1%positive StatusActive)
             (User.mk 2 "Ivan (user)" RoleUser)); reflexivity.
Defined.

Lemma same_event_can_be_booked_twice_witness :
  ∃ σ1 σ2,
    BookEvent 2 1 2%positive demoOne = Return None σ1
    ∧ BookEvent 2 1 2%positive σ1 = Return None σ2
    ∧ length (BookingSystem.bookings (system σ2)) = 2%nat.
Proof.
  destruct (same_event_can_be_booked_twice 2 2 1 2%positive
              (User.mk 2 "Ivan (user)" RoleUser) 0 1%positive
              (Event.mk 1 "Jazz Concert" 24%Z "Jazz Club") demoOne)
    as (σ1 & σ2 & q1 & q2 & H1 & H2 & _ & Hl & _).
  - apply demoOne_consistent.
  - reflexivity.
  - reflexivity.
  - vm_compute. reflexivity.
  - by vm_compute.
  - exists σ1, σ2. split; [done|]. split; [done|]. by rewrite Hl.
Defined.

Lemma who_may_cancel_witness :
  CancelBooking 1 1%positive demoBooked
  = Return (Some "you can only cancel your own bookings") demoBooked.
Proof.
  apply (who_may_cancel 1 1%positive 0 1%positive
           (Booking.mk 1 2%positive 1%positive StatusActive)
           (User.mk 2 "Ivan (user)" RoleUser)
           (User.mk 1 "Anna (guest)" RoleGuest) demoBooked).
  - vm_compute. reflexivity.
  - reflexivity.
  - reflexivity.
  - discriminate.
  - discriminate.
Defined.

Lemma cancelled_stays_cancelled_witness :
  ∃ b',
    bookingObj
      (storeAfter
         (performAll pretty
            [CallBookEvent 2 1 2%positive; CallDeleteEvent 1 3%positive;
             CallCancelBooking 1 2%positive]
            (storeAfter (CancelBooking 1 2%positive demoBooked))))
    !! 1%positive = Some b'
    ∧ Booking.Status b' = StatusCancelled.
Proof.
  destruct (cancelled_stays_cancelled pretty
              [CallBookEvent 2 1 2%positive; CallDeleteEvent 1 3%positive;
               CallCancelBooking 1 2%positive] 1%positive
              (Booking.mk 1 2%positive 1%positive StatusCancelled)
              (storeAfter (CancelBooking 1 2%positive demoBooked)))
    as (b' & Hb' & _ & _ & _ & _ & Hs).
  - vm_compute. reflexivity.
  - exists b'. split; [done|]. by apply Hs.
Defined.

Lemma ListEvents_prints_witness :
  ∃ lines,
    ListEvents pretty demoOne
    = Return tt
        (mkStore (userObj demoOne) (eventObj demoOne) (bookingObj demoOne)
           (system demoOne) (stdout demoOne ++ lines)).
Proof.
  destruct (ListEvents_prints pretty demoOne) as (lines & H & _).
  - apply demoOne_consistent.
  - by exists lines.
Defined.

Lemma ListAllBookings_prints_witness :
  ∃ lines,
    ListAllBookings 1%positive demoBooked
    = Return tt
        (mkStore (userObj demoBooked) (eventObj demoBooked)
           (bookingObj demoBooked) (system demoBooked)
           (stdout demoBooked ++ lines))
    ∧ lines = ["Access denied" +:+ newline].
Proof.
  destruct (ListAllBookings_prints 1%positive
              (User.mk 1 "Anna (guest)" RoleGuest) demoBooked)
    as (lines & H & Hdenied & _).
  - apply demoBooked_consistent.
  - reflexivity.
  - exists lines. split; [done|]. by apply Hdenied.
Defined.

(** * Properties of the checkout *)

Section CheckoutFacts.
Context `{Float64 F}.
Implicit Types (order : Order.t F) (promo : option (PromoCode.t F))
  (a : @Action F) (actions : list (@Action F)).

Lemma Pay_not_cancelled order promo :
  Order.Cancelled order = false ->
  (Pay order promo).1.1 = None
  ∧ Order.Status (Pay order promo).1.2 = "paid"
  ∧ Order.Cancelled (Pay order promo).1.2 = false
  ∧ Order.ID (Pay order promo).1.2 = Order.ID order
  ∧ Order.Cart (Pay order promo).1.2 = Order.Cart order
  ∧ Order.Address (Pay order promo).1.2 = Order.Address order.
Proof.
  intros Hc. unfold Pay. rewrite Hc. cbn. by destruct promo.
Qed.

Lemma Pay_cancelled order promo :
  Order.Cancelled order = true ->
  Pay order promo = (Some "order cancelled", order, []).
Proof. intros Hc. unfold Pay. by rewrite Hc. Qed.

Lemma act_statusInOrder order a :
  statusInOrder order -> statusInOrder (act order a).
Proof.
  intros [Hs Hc]. destruct a as [promo| |]; cbn [act].
  - destruct (Order.Cancelled order) eqn:Hcan.
    + rewrite Pay_cancelled by done. cbn. split; [done|]. by rewrite Hcan.
    + destruct (Pay_not_cancelled order promo Hcan) as (_ & Hp & Hf & _).
      split.
      * rewrite Hp. rewrite !elem_of_cons. tauto.
      * rewrite Hp, Hf. split; discriminate.
  - unfold ProcessAndShip. case_decide as Hp; cbn; [done|].
    split; [rewrite !elem_of_cons; tauto|].
    split; [intros Hcan | discriminate]. apply Hc in Hcan.
    rewrite Hp in Hcan. discriminate.
  - unfold CancelOrder. case_decide; cbn; [done|].
    split; [rewrite !elem_of_cons; tauto | done].
Qed.

Lemma act_ID order a : Order.ID (act order a) = Order.ID order.
Proof.
  destruct a as [promo| |]; cbn [act].
  - unfold Pay. destruct (Order.Cancelled order); [done|]. cbn.
    by destruct promo.
  - unfold ProcessAndShip. by case_decide.
  - unfold CancelOrder. by case_decide.
Qed.

Lemma actAll_statusInOrder order actions :
  statusInOrder order -> statusInOrder (actAll order actions).
Proof.
  unfold actAll. revert order.
  induction actions as [|a actions IH]; intros order Ho; [done|].
  cbn. apply IH. by apply act_statusInOrder.
Qed.

Lemma actAll_ID order actions :
  Order.ID (actAll order actions) = Order.ID order.
Proof.
  unfold actAll. revert order.
  induction actions as [|a actions IH]; intros order; [done|].
  cbn. by rewrite IH, act_ID.
Qed.

(** X23. [CreateOrder] panics exactly on an empty cart.  Otherwise the order
    takes the processor's next ID, which goes up by one, and starts as
    "created" and not cancelled; and through every sequence of [Pay],
    [ProcessAndShip] and [CancelOrder] it keeps its ID and its status is one
    of "created", "paid", "shipped", "cancelled", the last exactly when the
    [Cancelled] flag is set. *)
Theorem order_status_stays_in_order (NextOrderID : Z) (cart : Cart.t F)
    (name address : string) (method : PaymentMethod) actions :
  (CreateOrder NextOrderID cart name address method = None
     ↔ Cart.Items cart = [])
  ∧ ∀ order next,
      CreateOrder NextOrderID cart name address method
      = Some (order, next) ->
      Order.ID order = NextOrderID
      ∧ next = wrapInt (NextOrderID + 1)
      ∧ Order.Status order = "created"
      ∧ Order.Cart order = cart
      ∧ statusInOrder (actAll order actions)
      ∧ Order.ID (actAll order actions) = NextOrderID.
Proof.
  unfold CreateOrder. split.
  - destruct (Cart.Items cart); cbn; case_decide; done.
  - intros order next. case_decide; [done|]. intros Heq.
    injection Heq as <- <-. cbn. split_and!; try done.
    + apply actAll_statusInOrder.
      split; [rewrite !elem_of_cons; cbn; tauto | done].
    + by rewrite actAll_ID.
Qed.

(** X24. A cancelled order stays cancelled: once [CancelOrder] has gone
    through, [Pay] fails with "order cancelled", [ProcessAndShip] fails with
    "payment not confirmed", both without a change or a line of output, and
    after any sequence of calls the order is the cancelled order it was. *)
Theorem cancelled_order_is_final order promo actions :
  Order.Status order ≠ "paid" -> Order.Status order ≠ "shipped" ->
  Pay (CancelOrder order).1 promo
  = (Some "order cancelled", (CancelOrder order).1, [])
  ∧ ProcessAndShip (CancelOrder order).1
    = (Some "payment not confirmed", (CancelOrder order).1, [])
  ∧ actAll (CancelOrder order).1 actions = (CancelOrder order).1.
Proof.
  intros Hp Hs.
  assert (Hc : ∃ o, (CancelOrder order).1 = o
                    ∧ Order.Cancelled o = true
                    ∧ Order.Status o = "cancelled").
  { unfold CancelOrder. case_decide as Hd; [by destruct Hd|]. by eexists. }
  destruct Hc as (o & -> & Hcan & Hst).
  assert (Hact : ∀ a, act o a = o).
  { intros [promo'| |]; cbn [act].
    - by rewrite Pay_cancelled.
    - unfold ProcessAndShip. rewrite Hst. by case_decide.
    - unfold CancelOrder. rewrite Hst. case_decide as Hd.
      + by destruct Hd.
      + cbn. destruct o. cbn in *. by subst. }
  split; [by apply Pay_cancelled|]. split.
  - unfold ProcessAndShip. rewrite Hst. by case_decide.
  - unfold actAll. induction actions as [|a actions IH]; [done|].
    cbn. by rewrite Hact.
Qed.

(** X25. Shipping needs payment, and payment blocks cancelling.
    [ProcessAndShip] succeeds exactly when the status is "paid" and then
    makes it "shipped", so it cannot be done twice in a row; [CancelOrder]
    changes nothing on a paid or shipped order and prints "Cannot cancel paid
    order". *)
Theorem ship_after_pay_only order :
  ((ProcessAndShip order).1.1 = None ↔ Order.Status order = "paid")
  ∧ (Order.Status order = "paid" ->
     Order.Status (ProcessAndShip order).1.2 = "shipped"
     ∧ ProcessAndShip (ProcessAndShip order).1.2
       = (Some "payment not confirmed", (ProcessAndShip order).1.2, []))
  ∧ (Order.Status order ≠ "paid" ->
     ProcessAndShip order = (Some "payment not confirmed", order, []))
  ∧ (Order.Status order = "paid" ∨ Order.Status order = "shipped" ->
     CancelOrder order = (order, ["Cannot cancel paid order" +:+ newline])).
Proof.
  unfold ProcessAndShip, CancelOrder. split; [|split; [|split]].
  - case_decide as Hd; cbn; split; done.
  - intros Hp. rewrite Hp. cbn. done.
  - intros Hp. by case_decide.
  - intros Hp. by case_decide.
Qed.

(** X26. [Pay] looks at the [Cancelled] flag and at nothing else: an order
    that is not cancelled is always paid, whatever its status; payment never
    fails.  So an order can be paid twice, and paying a shipped order makes
    it "paid" again, after which it is shipped a second time. *)
Theorem Pay_does_not_look_at_status order promo promo' :
  Order.Cancelled order = false ->
  (Pay order promo).1.1 = None
  ∧ Order.Status (Pay order promo).1.2 = "paid"
  ∧ (Pay (Pay order promo).1.2 promo').1.1 = None
  ∧ (ProcessAndShip
       (Pay (ProcessAndShip (Pay order promo).1.2).1.2 promo').1.2).1.1
    = None.
Proof.
  intros Hc.
  destruct (Pay_not_cancelled order promo Hc) as (H1 & H2 & H3 & _).
  split; [done|]. split; [done|]. split.
  - by apply Pay_not_cancelled.
  - set (o1 := (Pay order promo).1.2) in *.
    assert (Hs : Order.Cancelled (ProcessAndShip o1).1.2 = false).
    { unfold ProcessAndShip. by case_decide. }
    destruct (Pay_not_cancelled _ promo' Hs) as (_ & Hp & _).
    unfold ProcessAndShip at 1. rewrite Hp. by case_decide.
Qed.

(** X27. The total of a cart is built up item by item in the order the
    products were added: adding a product extends the total of the cart by
    that product's price and quantity, and an empty cart totals [0.0].  A
    payment without promo code stores that total in the order. *)
Theorem total_follows_the_cart (c : Cart.t F) (p : Product.t F) (qty : Z)
    order :
  GetTotal CreateCart = f64_zero
  ∧ GetTotal (AddProduct c p qty)
    = f64_addProduct (GetTotal c) (Product.Price p) qty
  ∧ (Order.Cancelled order = false ->
     Order.TotalAmount (Pay order None).1.2 = GetTotal (Order.Cart order)).
Proof.
  split; [done|]. split.
  - unfold GetTotal, AddProduct. cbn. by rewrite foldl_app.
  - intros Hc. unfold Pay. by rewrite Hc.
Qed.

End CheckoutFacts.

Lemma order_status_stays_in_order_witness :
  statusInOrder (actAll demoOrder [DoCancelOrder; DoPay None;
                                   DoProcessAndShip]).
Proof.
  apply (proj2 (order_status_stays_in_order 2 demoCart "Maria"
                  "5 Pushkin St" PaymentCash
                  [DoCancelOrder; DoPay None; DoProcessAndShip])
           demoOrder 3%Z).
  reflexivity.
Defined.

Lemma cancelled_order_is_final_witness :
  Pay (CancelOrder demoOrder).1 None
  = (Some "order cancelled", (CancelOrder demoOrder).1, []).
Proof.
  apply (cancelled_order_is_final demoOrder None []); discriminate.
Defined.

Lemma ship_after_pay_only_witness :
  ProcessAndShip demoOrder = (Some "payment not confirmed", demoOrder, []).
Proof.
  apply (ship_after_pay_only demoOrder). discriminate.
Defined.

Lemma Pay_does_not_look_at_status_witness :
  (Pay (Pay demoOrder None).1.2 None).1.1 = None.
Proof.
  apply (Pay_does_not_look_at_status demoOrder None None). reflexivity.
Defined.

Lemma total_follows_the_cart_witness :
  Order.TotalAmount (Pay demoOrder None).1.2 = 50000%Z.
Proof.
  destruct (total_follows_the_cart demoCart
              (Product.mk 2 "Charger" 1500%Z) 2 demoOrder) as (_ & _ & ->).
  - reflexivity.
  - reflexivity.
Defined.
